(** * jellyfin-tui: the navigation core, its fetch commands and its
    configuration file, embedded from [cmd/jellyfin-tui/main.go] and the
    [jellyfin] client package.

    The program is a bubbletea application: [Model.Update] consumes one
    message at a time and returns the next model together with a command;
    commands run outside the loop and come back as messages.  The widgets
    (bubbles [list.Model] and [textinput.Model]), [encoding/json], [net/http]
    and [os/exec] are libraries the program calls; they enter the embedding
    as interfaces (type classes), so every statement about [Update] holds for
    whatever the widgets do.  The file system that [loadConfig] and
    [saveConfig] use is an explicit state. *)

From Stdlib Require Import ZArith String Ascii List Bool Lia.
From Stdlib Require Import Sorting.Sorted Sorting.Permutation.
From Stdlib Require Import DecimalString DecimalN.
From stdpp Require Import base option gmap strings list.

Local Open Scope Z_scope.
Local Open Scope string_scope.

(** ** Data *)

(** Go's [error] interface, observed through its text ([%v]). *)
Definition Error := string.

(** [Config] of main.go, lines 19-22. *)
Record Config := mkConfig {
  ServerURL : string;
  APIKey : string
}.

(** [MediaItem] of main.go, lines 25-34.  [Type] is a keyword of Rocq, the
    field is spelled [Type_].  An [int] that [encoding/json] decoded is in
    range, and the program only compares it: [IndexNumber] is an integer. *)
Record MediaItem := mkMediaItem {
  ID : string;
  ItemTitle : string;
  Type_ : string;
  ImageURL : string;
  StreamURL : string;
  ParentID : string;
  IndexNumber : Z;
  DisplayTitle : string
}.

(** The zero value [MediaItem{}]. *)
Definition MediaItem_zero : MediaItem :=
  mkMediaItem "" "" "" "" "" "" 0 "".

(** The only [list.Item] the program ever stores is a [MediaItem], so the
    type assertion [.(MediaItem)] succeeds exactly when an item is there. *)
Definition Item := MediaItem.

Definition Title (m : MediaItem) : string :=
  if String.eqb (DisplayTitle m) "" then ItemTitle m else DisplayTitle m.
Definition Description (m : MediaItem) : string := Type_ m.
Definition FilterValue (m : MediaItem) : string := ItemTitle m.

(** [jellyfin.MediaItem] of the client package.  [encoding/json] leaves a
    field whose key is absent at its zero value: an absent [IndexNumber]
    reads as 0. *)
Module jellyfin.
Record MediaItem := mkMediaItem {
  ID : string;
  Name : string;
  Type_ : string;
  MediaType : string;
  ImageTags : list (string * string);
  IndexNumber : Z
}.

Record Client := mkClient {
  ServerURL : string;
  APIKey : string
}.

Definition NewClient (serverURL apiKey : string) : Client :=
  mkClient serverURL apiKey.
End jellyfin.

(** ** Messages and commands *)

(** [tea.Msg] as [Update] tells them apart.  A key message is observed
    through [msg.String()] only; [OtherMsg] stands for every message of
    another dynamic type (a widget's own messages).  The type switch enters
    [case errorMsg] only for a non-nil interface value, so [errorMsg]
    always carries an error. *)
Inductive Msg :=
| KeyMsg (key : string)
| WindowSizeMsg (Width Height : Z)
| fetchMoviesMsg (items : list MediaItem)
| fetchTVShowsMsg (items : list MediaItem)
| fetchSeasonsMsg (items : list MediaItem)
| fetchEpisodesMsg (items : list MediaItem)
| searchResultsMsg (items : list MediaItem)
| errorMsg (e : Error)
| OtherMsg (tag : string).

(** [tea.Cmd]: the nil command, [tea.Quit], the closures main.go builds
    (named after the functions that build them, with the values they
    capture), and the commands a widget hands back. *)
Inductive Cmd :=
| nil_cmd
| Quit
| fetchMovies (config : Config)
| fetchTVShows (config : Config)
| fetchSeasons (config : Config) (seriesID : string)
| fetchEpisodes (config : Config) (seasonID : string)
| searchMedia (config : Config) (query : string)
| playMedia (item : MediaItem)
| widget_cmd (tag : string).

(** ** The widgets *)

(** What main.go uses of bubbles' [list.Model].  Methods with a pointer
    receiver return the changed widget; the command [SetItems] returns is
    dropped by the caller and is left out. *)
Class ListWidget (L : Type) := {
  list_New : list Item -> Z -> Z -> L;
  list_SetTitle : string -> L -> L;
  list_Update : Msg -> L -> L * Cmd;
  list_SelectedItem : L -> option Item;
  list_SetItems : list Item -> L -> L;
  list_Items : L -> list Item;
  list_SetSize : Z -> Z -> L -> L;
  list_View : L -> string
}.

(** What main.go uses of bubbles' [textinput.Model]; the command of
    [Focus] is dropped by every caller. *)
Class TextInput (T : Type) := {
  ti_New : T;
  ti_SetPlaceholder : string -> T -> T;
  ti_SetWidth : Z -> T -> T;
  ti_Focus : T -> T;
  ti_Blur : T -> T;
  ti_Focused : T -> bool;
  ti_SetValue : string -> T -> T;
  ti_Value : T -> string;
  ti_Update : Msg -> T -> T * Cmd;
  ti_View : T -> string
}.

(** [encoding/json] at the two types the program decodes and the one it
    encodes. *)
Class JSON := {
  json_MarshalIndent : Config -> Error + string;
  json_Unmarshal_Config : string -> Error + Config;
  json_Unmarshal_Items : string -> Error + list jellyfin.MediaItem
}.

(** ** The file system *)

Inductive Node :=
| Dir
| File (data : string).

(** [home] is what [os.UserHomeDir] finds ([None]: it fails); [nodes] maps
    a path to what is there (the root and the working directory are always
    there and are not listed); on a [readonly] file system nothing can be
    created or opened for writing; with [write_fails_after = Some k] the
    device fails every write to an open file, with [k] bytes of it through
    at most. *)
Record FS := mkFS {
  home : option string;
  nodes : gmap string Node;
  readonly : bool;
  write_fails_after : option nat
}.

Definition with_node (fs : FS) (path : string) (n : Node) : FS :=
  mkFS (home fs) (<[path := n]> (nodes fs)) (readonly fs) (write_fails_after fs).

(** The directories above a path, outermost first: its non-empty prefixes
    that end right before a separator. *)
Fixpoint ancestors_from (prefix rest : string) : list string :=
  match rest with
  | EmptyString => []
  | String a rest' =>
      (if Ascii.eqb a "/"
       then match prefix with
            | EmptyString => []
            | _ => [prefix]
            end
       else [])
        ++ ancestors_from (prefix +:+ String a EmptyString) rest'
  end.

(** The same, nearest first: the parent directory, then its parent, ... *)
Definition parents (path : string) : list string :=
  rev (ancestors_from "" path).

(** What is wrong with the parent directory of a path, if anything: it is
    not there, or it is a regular file. *)
Definition parent_error (fs : FS) (path : string) : option string :=
  match parents path with
  | [] => None
  | parent :: _ =>
      match nodes fs !! parent with
      | Some Dir => None
      | Some (File _) => Some "not a directory"
      | None => Some "no such file or directory"
      end
  end.

(** [filepath.Join] on clean components: joined by the separator. *)
Fixpoint filepath_Join (elems : list string) : string :=
  match elems with
  | [] => ""
  | [e] => e
  | e :: rest => e +:+ "/" +:+ filepath_Join rest
  end.

Definition os_UserHomeDir (fs : FS) : Error + string :=
  match home fs with
  | Some h => inr h
  | None => inl "$HOME is not defined"
  end.

(** [os.IsNotExist (os.Stat path)]. *)
Definition os_Stat_IsNotExist (fs : FS) (path : string) : bool :=
  match nodes fs !! path with
  | None => true
  | Some _ => false
  end.

Definition os_ReadFile (fs : FS) (path : string) : Error + string :=
  match nodes fs !! path with
  | Some (File data) => inr data
  | Some Dir => inl ("read " +:+ path +:+ ": is a directory")
  | None => inl ("open " +:+ path +:+ ": no such file or directory")
  end.

(** [os.Mkdir]. *)
Definition os_Mkdir (fs : FS) (path : string) : option Error * FS :=
  match nodes fs !! path with
  | Some _ => (Some ("mkdir " +:+ path +:+ ": file exists"), fs)
  | None =>
      match parent_error fs path with
      | Some why => (Some ("mkdir " +:+ path +:+ ": " +:+ why), fs)
      | None =>
          if readonly fs
          then (Some ("mkdir " +:+ path +:+ ": read-only file system"), fs)
          else (None, with_node fs path Dir)
      end
  end.

(** [os.MkdirAll], whose recursion on the parent path runs here over the
    path followed by the directories above it: a directory that is there
    ends it with success, a file in the way with an error; otherwise the
    directories above are made first, then the path itself. *)
Fixpoint mkdirAll_chain (fs : FS) (chain : list string) : option Error * FS :=
  match chain with
  | [] => (None, fs)
  | path :: above =>
      match nodes fs !! path with
      | Some Dir => (None, fs)
      | Some (File _) => (Some ("mkdir " +:+ path +:+ ": not a directory"), fs)
      | None =>
          match mkdirAll_chain fs above with
          | (Some e, fs1) => (Some e, fs1)
          | (None, fs1) => os_Mkdir fs1 path
          end
      end
  end.

Definition os_MkdirAll (fs : FS) (path : string) : option Error * FS :=
  mkdirAll_chain fs (path :: parents path).

(** [os.WriteFile]: the file is opened for writing, created or truncated,
    then written.  A write that fails leaves in the truncated file the
    bytes that went through. *)
Definition os_WriteFile (fs : FS) (path data : string) : option Error * FS :=
  match nodes fs !! path with
  | Some Dir => (Some ("open " +:+ path +:+ ": is a directory"), fs)
  | _ =>
      match parent_error fs path with
      | Some why => (Some ("open " +:+ path +:+ ": " +:+ why), fs)
      | None =>
          if readonly fs
          then (Some ("open " +:+ path +:+ ": read-only file system"), fs)
          else match write_fails_after fs with
               | Some k =>
                   (Some ("write " +:+ path +:+ ": input/output error"),
                    with_node fs path (File (String.substring 0 k data)))
               | None => (None, with_node fs path (File data))
               end
      end
  end.

(** From [fs] to [fs'] nothing that was there has changed and nothing has
    been added but directories at paths of [places]. *)
Definition only_adds_dirs (fs fs' : FS) (places : list string) : Prop :=
  home fs' = home fs
  /\ readonly fs' = readonly fs
  /\ write_fails_after fs' = write_fails_after fs
  /\ (forall q n, nodes fs !! q = Some n -> nodes fs' !! q = Some n)
  /\ (forall q n, nodes fs !! q = None -> nodes fs' !! q = Some n ->
                  n = Dir /\ In q places).

(** ** loadConfig and saveConfig (main.go, lines 140-206) *)

(** The paths both functions compute from the home directory. *)
Definition configDir (homeDir : string) : string :=
  filepath_Join [homeDir; ".config"; "jellyfin-tui"].
Definition configFile (homeDir : string) : string :=
  filepath_Join [configDir homeDir; "config"].

Section ConfigFile.
Context `{JSON}.

Definition loadConfig (fs : FS) : Error + Config :=
  match os_UserHomeDir fs with
  | inl e => inl ("failed to get home directory: " +:+ e)
  | inr homeDir =>
      let configDir := configDir homeDir in
      let configFile := configFile homeDir in
      if os_Stat_IsNotExist fs configFile
      then inl "config file does not exist"
      else
        match os_ReadFile fs configFile with
        | inl e => inl ("failed to read config file: " +:+ e)
        | inr data =>
            match json_Unmarshal_Config data with
            | inl e => inl ("failed to parse config file: " +:+ e)
            | inr config => inr config
            end
        end
  end.

Definition saveConfig (config : Config) (fs : FS) : option Error * FS :=
  match os_UserHomeDir fs with
  | inl e => (Some ("failed to get home directory: " +:+ e), fs)
  | inr homeDir =>
      let configDir := configDir homeDir in
      match os_MkdirAll fs configDir with
      | (Some e, fs1) => (Some ("failed to create config directory: " +:+ e), fs1)
      | (None, fs1) =>
          let configFile := configFile homeDir in
          match json_MarshalIndent config with
          | inl e => (Some ("failed to marshal config: " +:+ e), fs1)
          | inr data =>
              match os_WriteFile fs1 configFile data with
              | (Some e, fs2) => (Some ("failed to write config file: " +:+ e), fs2)
              | (None, fs2) => (None, fs2)
              end
          end
      end
  end.


(** [encoding/json] reads back what it wrote for [config]. *)
Definition json_roundtrips (config : Config) : Prop :=
  exists data,
    json_MarshalIndent config = inr data
    /\ json_Unmarshal_Config data = inr config.
End ConfigFile.

(** ** The catalog client (package jellyfin) *)

(** [net/http] as the client sees it: [Get] fails in transport or gives a
    response whose body [io.ReadAll] reads or fails to read. *)
Record Response := mkResponse {
  StatusCode : Z;
  Status : string;
  Body : Error + string
}.

Class Network := {
  http_Get : string -> Error + Response;
  url_QueryEscape : string -> string
}.

Definition http_StatusOK : Z := 200.

Section Client.
Context `{JSON} `{Network}.

(** [Client.fetchItems]. *)
Definition fetchItems (c : jellyfin.Client) (endpoint : string)
  : Error + list jellyfin.MediaItem :=
  match http_Get endpoint with
  | inl e => inl e
  | inr resp =>
      if negb (Z.eqb (StatusCode resp) http_StatusOK)
      then inl ("API request failed with status: " +:+ Status resp)
      else
        match Body resp with
        | inl e => inl e
        | inr body =>
            match json_Unmarshal_Items body with
            | inl e => inl e
            | inr items => inr items
            end
        end
  end.

Definition FetchItems := fetchItems.

Definition GetMovies (c : jellyfin.Client) :=
  fetchItems c (jellyfin.ServerURL c
                +:+ "/Items?IncludeItemTypes=Movie&Recursive=true&api_key="
                +:+ jellyfin.APIKey c).

Definition GetTVShows (c : jellyfin.Client) :=
  fetchItems c (jellyfin.ServerURL c
                +:+ "/Items?IncludeItemTypes=Series&Recursive=true&api_key="
                +:+ jellyfin.APIKey c).

Definition Search (c : jellyfin.Client) (query : string) :=
  fetchItems c (jellyfin.ServerURL c +:+ "/Items?SearchTerm="
                +:+ url_QueryEscape query
                +:+ "&Recursive=true&api_key=" +:+ jellyfin.APIKey c).

Definition GetStreamURL (c : jellyfin.Client) (itemID : string) : string :=
  jellyfin.ServerURL c +:+ "/Videos/" +:+ itemID +:+ "/stream?api_key="
  +:+ jellyfin.APIKey c.
End Client.

(** ** Sorting *)

(** [sort.Slice]: the slice after the call, for the [less] it is given. *)
Class SortSlice := {
  sort_Slice : forall A : Type, (A -> A -> bool) -> list A -> list A
}.

(** What [sort.Slice] promises when [less] is a strict weak ordering: the
    same elements, and no element less than one before it.  It does not
    promise stability. *)
Definition strict_weak {A} (less : A -> A -> bool) : Prop :=
  (forall x y, less x y = true -> less y x = false) /\
  (forall x y z, less y x = false -> less z y = false -> less z x = false).

Definition sort_Slice_contract `{SortSlice} : Prop :=
  forall (A : Type) (less : A -> A -> bool) (l : list A),
    Permutation l (sort_Slice A less l) /\
    (strict_weak less ->
     StronglySorted (fun x y => less y x = false) (sort_Slice A less l)).

(** Go's [insertionSortLessFunc], which [sort.Slice] runs on a slice of at
    most twelve elements: each element in turn is swapped leftwards while
    it is less than its left neighbour.  [prefix_rev] is the sorted prefix,
    last element first. *)
Fixpoint insert_leftwards {A} (less : A -> A -> bool) (x : A) (prefix_rev : list A)
  : list A :=
  match prefix_rev with
  | [] => [x]
  | y :: ys => if less x y then y :: insert_leftwards less x ys else x :: y :: ys
  end.

Definition insertionSort {A} (less : A -> A -> bool) (l : list A) : list A :=
  rev (fold_left (fun prefix_rev x => insert_leftwards less x prefix_rev) l []).

(** The sorted prefix, last element first: no element is less than one
    that comes after it in this order. *)
Definition descending {A} (less : A -> A -> bool) : list A -> Prop :=
  StronglySorted (fun a b => less a b = false).

#[export] Instance insertion_SortSlice : SortSlice :=
  {| sort_Slice := @insertionSort |}.

(** ** Commands (main.go, lines 476-636) *)

(** [os/exec]: [exec.Command(name, args...).Start()]. *)
Class Exec := {
  exec_Start : string -> list string -> option Error
}.

(** [fmt.Sprintf "%02d"] of an integer: decimal digits, zero-padded to two
    characters (a sign counts as one). *)
Definition fmt_02d (n : Z) : string :=
  if Z.ltb n 0 then "-" +:+ NilEmpty.string_of_uint (N.to_uint (Z.to_N (- n)))
  else
    let d := NilEmpty.string_of_uint (N.to_uint (Z.to_N n)) in
    if Nat.ltb (String.length d) 2 then "0" +:+ d else d.

Section Commands.
Context `{JSON} `{Network} `{SortSlice} `{Exec}.

Definition run_fetchMovies (config : Config) : Msg :=
  let client := jellyfin.NewClient (ServerURL config) (APIKey config) in
  match GetMovies client with
  | inl e => errorMsg e
  | inr items =>
      fetchMoviesMsg
        (map (fun item =>
                {| ID := jellyfin.ID item;
                   ItemTitle := jellyfin.Name item;
                   Type_ := jellyfin.MediaType item;
                   ImageURL := "";
                   StreamURL := GetStreamURL client (jellyfin.ID item);
                   ParentID := "";
                   IndexNumber := 0;
                   DisplayTitle := "" |}) items)
  end.

Definition run_fetchTVShows (config : Config) : Msg :=
  let client := jellyfin.NewClient (ServerURL config) (APIKey config) in
  match GetTVShows client with
  | inl e => errorMsg e
  | inr items =>
      fetchTVShowsMsg
        (map (fun item =>
                {| ID := jellyfin.ID item;
                   ItemTitle := jellyfin.Name item;
                   Type_ := "tvshow";
                   ImageURL := "";
                   StreamURL := GetStreamURL client (jellyfin.ID item);
                   ParentID := "";
                   IndexNumber := 0;
                   DisplayTitle := "" |}) items)
  end.

Definition run_fetchSeasons (config : Config) (seriesID : string) : Msg :=
  let client := jellyfin.NewClient (ServerURL config) (APIKey config) in
  let endpoint := ServerURL config +:+ "/Shows/" +:+ seriesID
                  +:+ "/Seasons?api_key=" +:+ APIKey config in
  match FetchItems client endpoint with
  | inl e => errorMsg e
  | inr items =>
      fetchSeasonsMsg
        (map (fun item =>
                {| ID := jellyfin.ID item;
                   ItemTitle := jellyfin.Name item;
                   Type_ := "season";
                   ImageURL := "";
                   StreamURL := "";
                   ParentID := seriesID;
                   IndexNumber := 0;
                   DisplayTitle := "" |}) items)
  end.

(** The record [fetchEpisodes] builds from one item of the response. *)
Definition episode_of (client : jellyfin.Client) (seasonID : string)
           (item : jellyfin.MediaItem) : MediaItem :=
  let displayTitle :=
    if Z.ltb 0 (jellyfin.IndexNumber item)
    then "E" +:+ fmt_02d (jellyfin.IndexNumber item) +:+ ": " +:+ jellyfin.Name item
    else jellyfin.Name item in
  {| ID := jellyfin.ID item;
     ItemTitle := jellyfin.Name item;
     Type_ := "episode";
     ImageURL := "";
     StreamURL := GetStreamURL client (jellyfin.ID item);
     ParentID := seasonID;
     IndexNumber := jellyfin.IndexNumber item;
     DisplayTitle := displayTitle |}.

(** The comparison handed to [sort.Slice]. *)
Definition less_IndexNumber (a b : MediaItem) : bool :=
  Z.ltb (IndexNumber a) (IndexNumber b).

(** The endpoint [fetchEpisodes] builds. *)
Definition episodes_endpoint (config : Config) (seasonID : string) : string :=
  ServerURL config +:+ "/Items?ParentId=" +:+ seasonID
  +:+ "&api_key=" +:+ APIKey config +:+ "&SortBy=SortName".

Definition run_fetchEpisodes (config : Config) (seasonID : string) : Msg :=
  let client := jellyfin.NewClient (ServerURL config) (APIKey config) in
  let endpoint := episodes_endpoint config seasonID in
  match FetchItems client endpoint with
  | inl e => errorMsg e
  | inr items =>
      let mediaItems := map (episode_of client seasonID) items in
      fetchEpisodesMsg (sort_Slice MediaItem less_IndexNumber mediaItems)
  end.

Definition run_searchMedia (config : Config) (query : string) : Msg :=
  let client := jellyfin.NewClient (ServerURL config) (APIKey config) in
  match Search client query with
  | inl e => errorMsg e
  | inr items =>
      searchResultsMsg
        (map (fun item =>
                {| ID := jellyfin.ID item;
                   ItemTitle := jellyfin.Name item;
                   Type_ := jellyfin.MediaType item;
                   ImageURL := "";
                   StreamURL := GetStreamURL client (jellyfin.ID item);
                   ParentID := "";
                   IndexNumber := 0;
                   DisplayTitle := "" |}) items)
  end.

(** [playMedia]: the message is nil when mpv started.  The line it
    prints on standard output is not part of the state and is left out. *)
Definition run_playMedia (item : MediaItem) : option Msg :=
  match exec_Start "mpv" [StreamURL item] with
  | Some e => Some (errorMsg ("failed to start MPV: " +:+ e))
  | None => None
  end.

(** The message a command delivers to the loop, if any.  [tea.Quit] ends
    the loop instead. *)
Definition run_Cmd (c : Cmd) : option Msg :=
  match c with
  | nil_cmd => None
  | Quit => None
  | fetchMovies config => Some (run_fetchMovies config)
  | fetchTVShows config => Some (run_fetchTVShows config)
  | fetchSeasons config seriesID => Some (run_fetchSeasons config seriesID)
  | fetchEpisodes config seasonID => Some (run_fetchEpisodes config seasonID)
  | searchMedia config query => Some (run_searchMedia config query)
  | playMedia item => run_playMedia item
  | widget_cmd tag => Some (OtherMsg tag)
  end.
End Commands.

(** ** The model (main.go, lines 48-61) *)

Record Model (L T : Type) := mkModel {
  config : Config;
  currentView : string;
  mainList : L;
  moviesList : L;
  tvShowsList : L;
  seasonsList : L;
  episodesList : L;
  searchInput : T;
  searchList : L;
  configInputs : list T;
  currentItem : MediaItem;
  err : option Error
}.

Arguments mkModel {L T}.
Arguments config {L T}.
Arguments currentView {L T}.
Arguments mainList {L T}.
Arguments moviesList {L T}.
Arguments tvShowsList {L T}.
Arguments seasonsList {L T}.
Arguments episodesList {L T}.
Arguments searchInput {L T}.
Arguments searchList {L T}.
Arguments configInputs {L T}.
Arguments currentItem {L T}.
Arguments err {L T}.

(** Assignments to one field of the model. *)
Section Setters.
Context {L T : Type}.
Implicit Type m : Model L T.

Definition set_config (x : Config) m : Model L T :=
  mkModel x (currentView m) (mainList m) (moviesList m) (tvShowsList m)
    (seasonsList m) (episodesList m) (searchInput m) (searchList m)
    (configInputs m) (currentItem m) (err m).
Definition set_currentView (x : string) m : Model L T :=
  mkModel (config m) x (mainList m) (moviesList m) (tvShowsList m)
    (seasonsList m) (episodesList m) (searchInput m) (searchList m)
    (configInputs m) (currentItem m) (err m).
Definition set_mainList (x : L) m : Model L T :=
  mkModel (config m) (currentView m) x (moviesList m) (tvShowsList m)
    (seasonsList m) (episodesList m) (searchInput m) (searchList m)
    (configInputs m) (currentItem m) (err m).
Definition set_moviesList (x : L) m : Model L T :=
  mkModel (config m) (currentView m) (mainList m) x (tvShowsList m)
    (seasonsList m) (episodesList m) (searchInput m) (searchList m)
    (configInputs m) (currentItem m) (err m).
Definition set_tvShowsList (x : L) m : Model L T :=
  mkModel (config m) (currentView m) (mainList m) (moviesList m) x
    (seasonsList m) (episodesList m) (searchInput m) (searchList m)
    (configInputs m) (currentItem m) (err m).
Definition set_seasonsList (x : L) m : Model L T :=
  mkModel (config m) (currentView m) (mainList m) (moviesList m) (tvShowsList m)
    x (episodesList m) (searchInput m) (searchList m)
    (configInputs m) (currentItem m) (err m).
Definition set_episodesList (x : L) m : Model L T :=
  mkModel (config m) (currentView m) (mainList m) (moviesList m) (tvShowsList m)
    (seasonsList m) x (searchInput m) (searchList m)
    (configInputs m) (currentItem m) (err m).
Definition set_searchInput (x : T) m : Model L T :=
  mkModel (config m) (currentView m) (mainList m) (moviesList m) (tvShowsList m)
    (seasonsList m) (episodesList m) x (searchList m)
    (configInputs m) (currentItem m) (err m).
Definition set_searchList (x : L) m : Model L T :=
  mkModel (config m) (currentView m) (mainList m) (moviesList m) (tvShowsList m)
    (seasonsList m) (episodesList m) (searchInput m) x
    (configInputs m) (currentItem m) (err m).
Definition set_configInputs (x : list T) m : Model L T :=
  mkModel (config m) (currentView m) (mainList m) (moviesList m) (tvShowsList m)
    (seasonsList m) (episodesList m) (searchInput m) (searchList m)
    x (currentItem m) (err m).
Definition set_currentItem (x : MediaItem) m : Model L T :=
  mkModel (config m) (currentView m) (mainList m) (moviesList m) (tvShowsList m)
    (seasonsList m) (episodesList m) (searchInput m) (searchList m)
    (configInputs m) x (err m).
Definition set_err (x : option Error) m : Model L T :=
  mkModel (config m) (currentView m) (mainList m) (moviesList m) (tvShowsList m)
    (seasonsList m) (episodesList m) (searchInput m) (searchList m)
    (configInputs m) (currentItem m) x.
End Setters.

(** ** Effects of the loop *)

(** A step of the loop reads and writes the file system (through
    [saveConfig]) and panics when it indexes [configInputs] out of range:
    [None] is the panic. *)
Definition Eff (A : Type) : Type := FS -> option (A * FS).

Definition ret {A} (a : A) : Eff A := fun fs => Some (a, fs).

Definition bind {A B} (c : Eff A) (k : A -> Eff B) : Eff B :=
  fun fs => match c fs with
            | Some (a, fs') => k a fs'
            | None => None
            end.

Notation "'let*' x := c 'in' k" := (bind c (fun x => k))
  (at level 10, x name, c at level 100, k at level 200).

(** [l[i]]. *)
Definition index {A} (l : list A) (i : nat) : Eff A :=
  fun fs => match l !! i with
            | Some x => Some (x, fs)
            | None => None
            end.

(** [l[i].f()] for a method [f] that changes its receiver. *)
Definition at_index {A} (i : nat) (f : A -> A) (l : list A) : Eff (list A) :=
  let* x := index l i in ret (<[i := f x]> l).

(** [convertToListItems]. *)
Definition convertToListItems (items : list MediaItem) : list Item :=
  map (fun item => item : Item) items.

(** [lipgloss.NewStyle().Margin(1, 2).GetFrameSize()]: the margins of
    both sides, horizontally and vertically. *)
Definition frame_h : Z := 2 + 2.
Definition frame_v : Z := 1 + 1.

Definition newline : string := String (ascii_of_nat 10) EmptyString.

(** ** Update and View (main.go, lines 217-465) *)

Section App.
Context {L T : Type} `{!ListWidget L} `{!TextInput T} `{!JSON}.
Implicit Type m : Model L T.

(** [msg] is a [tea.KeyMsg] whose [String()] is ["enter"]. *)
Definition is_enter (msg : Msg) : bool :=
  match msg with
  | KeyMsg key => String.eqb key "enter"
  | _ => false
  end.

(** The loop over [configInputs]: the first focused input takes the
    message. *)
Fixpoint update_focused (msg : Msg) (inputs : list T) : list T * Cmd :=
  match inputs with
  | [] => ([], nil_cmd)
  | input :: rest =>
      if ti_Focused input
      then let (input', cmd) := ti_Update msg input in (input' :: rest, cmd)
      else let (rest', cmd) := update_focused msg rest in (input :: rest', cmd)
  end.

(** Both focus-moving branches of the config view have this body. *)
Definition toggle_focus (inputs : list T) : Eff (list T) :=
  let* in0 := index inputs 0 in
  if ti_Focused in0
  then let* inputs := at_index 0 ti_Blur inputs in at_index 1 ti_Focus inputs
  else let* inputs := at_index 0 ti_Focus inputs in at_index 1 ti_Blur inputs.

(** [case "main"], lines 276-302. *)
Definition update_main m (msg : Msg) : Eff (Model L T * Cmd) :=
  let (l, cmd) := list_Update msg (mainList m) in
  let m := set_mainList l m in
  if is_enter msg then
    match list_SelectedItem (mainList m) with
    | Some selectedItem =>
        if String.eqb (ItemTitle selectedItem) "Movies" then
          let m := set_currentView "movies" m in
          ret (m, fetchMovies (config m))
        else if String.eqb (ItemTitle selectedItem) "TV Shows" then
          let m := set_currentView "tvshows" m in
          ret (m, fetchTVShows (config m))
        else if String.eqb (ItemTitle selectedItem) "Search" then
          let m := set_currentView "search" m in
          let m := set_searchInput (ti_SetValue "" (searchInput m)) m in
          ret (m, nil_cmd)
        else if String.eqb (ItemTitle selectedItem) "Configure" then
          let m := set_currentView "config" m in
          let* inputs := at_index 0 (ti_SetValue (ServerURL (config m)))
                           (configInputs m) in
          let* inputs := at_index 1 (ti_SetValue (APIKey (config m))) inputs in
          let* inputs := at_index 0 ti_Focus inputs in
          ret (set_configInputs inputs m, nil_cmd)
        else ret (m, cmd)
    | None => ret (m, cmd)
    end
  else ret (m, cmd).

(** [case "movies", "tvshows"], lines 304-322. *)
Definition update_library m (msg : Msg) : Eff (Model L T * Cmd) :=
  let movies := String.eqb (currentView m) "movies" in
  let (l, cmd) := list_Update msg (if movies then moviesList m else tvShowsList m) in
  let m := if movies then set_moviesList l m else set_tvShowsList l m in
  if is_enter msg then
    match list_SelectedItem l with
    | Some selectedItem =>
        if negb (String.eqb (ID selectedItem) "") then
          let m := set_currentItem selectedItem m in
          let m := set_currentView "seasons" m in
          ret (m, fetchSeasons (config m) (ID selectedItem))
        else ret (m, cmd)
    | None => ret (m, cmd)
    end
  else ret (m, cmd).

(** [case "seasons"], lines 324-335. *)
Definition update_seasons m (msg : Msg) : Eff (Model L T * Cmd) :=
  let (l, cmd) := list_Update msg (seasonsList m) in
  let m := set_seasonsList l m in
  if is_enter msg then
    match list_SelectedItem (seasonsList m) with
    | Some selectedItem =>
        if negb (String.eqb (ID selectedItem) "") then
          let m := set_currentItem selectedItem m in
          let m := set_currentView "episodes" m in
          ret (m, fetchEpisodes (config m) (ID selectedItem))
        else ret (m, cmd)
    | None => ret (m, cmd)
    end
  else ret (m, cmd).

(** [case "episodes"], lines 337-346. *)
Definition update_episodes m (msg : Msg) : Eff (Model L T * Cmd) :=
  let (l, cmd) := list_Update msg (episodesList m) in
  let m := set_episodesList l m in
  if is_enter msg then
    match list_SelectedItem (episodesList m) with
    | Some selectedItem =>
        if negb (String.eqb (ID selectedItem) "")
        then ret (m, playMedia selectedItem)
        else ret (m, cmd)
    | None => ret (m, cmd)
    end
  else ret (m, cmd).

(** The second half of [case "search"], lines 358-369, entered with the
    command the first half left in [cmd]. *)
Definition update_search_results m (msg : Msg) (cmd : Cmd)
  : Eff (Model L T * Cmd) :=
  if Nat.ltb 0 (length (list_Items (searchList m))) then
    let (l, cmd) := list_Update msg (searchList m) in
    let m := set_searchList l m in
    if is_enter msg then
      match list_SelectedItem (searchList m) with
      | Some selectedItem =>
          if negb (String.eqb (ID selectedItem) "")
          then ret (m, playMedia selectedItem)
          else ret (m, cmd)
      | None => ret (m, cmd)
      end
    else ret (m, cmd)
  else ret (m, cmd).

(** [case "search"], lines 348-369. *)
Definition update_search m (msg : Msg) : Eff (Model L T * Cmd) :=
  if is_enter msg then
    let query := ti_Value (searchInput m) in
    if negb (String.eqb query "")
    then ret (m, searchMedia (config m) query)
    else update_search_results m msg nil_cmd
  else
    let (input, cmd) := ti_Update msg (searchInput m) in
    update_search_results (set_searchInput input m) msg cmd.

(** [case "config"], lines 371-422. *)
Definition update_config m (msg : Msg) : Eff (Model L T * Cmd) :=
  let otherwise :=
    let (inputs, cmd) := update_focused msg (configInputs m) in
    ret (set_configInputs inputs m, cmd) in
  match msg with
  | KeyMsg key =>
      if String.eqb key "tab" || String.eqb key "down" then
        let* inputs := toggle_focus (configInputs m) in
        ret (set_configInputs inputs m, nil_cmd)
      else if String.eqb key "shift+tab" || String.eqb key "up" then
        let* inputs := toggle_focus (configInputs m) in
        ret (set_configInputs inputs m, nil_cmd)
      else if String.eqb key "enter" then
        let* in0 := index (configInputs m) 0 in
        let* in1 := index (configInputs m) 1 in
        let newConfig := mkConfig (ti_Value in0) (ti_Value in1) in
        fun fs =>
          match saveConfig newConfig fs with
          | (Some e, fs') => Some ((set_err (Some e) m, nil_cmd), fs')
          | (None, fs') =>
              let m := set_config newConfig m in
              let m := set_currentView "main" m in
              Some ((m, nil_cmd), fs')
          end
      else otherwise
  | _ => otherwise
  end.

(** The switch on [m.currentView], lines 275-425. *)
Definition update_view m (msg : Msg) : Eff (Model L T * Cmd) :=
  let v := currentView m in
  if String.eqb v "main" then update_main m msg
  else if String.eqb v "movies" || String.eqb v "tvshows" then update_library m msg
  else if String.eqb v "seasons" then update_seasons m msg
  else if String.eqb v "episodes" then update_episodes m msg
  else if String.eqb v "search" then update_search m msg
  else if String.eqb v "config" then update_config m msg
  else ret (m, nil_cmd).

(** [Model.Update]: the switch on the message's type, lines 220-272, then
    the switch on the view. *)
Definition Update m (msg : Msg) : Eff (Model L T * Cmd) :=
  match msg with
  | KeyMsg key =>
      if String.eqb key "ctrl+c" || String.eqb key "q" then ret (m, Quit)
      else if String.eqb key "esc" then
        let v := currentView m in
        if String.eqb v "episodes" then
          ret (set_currentView "seasons" m, nil_cmd)
        else if String.eqb v "seasons" then
          ret (set_currentView "tvshows" m, nil_cmd)
        else if String.eqb v "movies" || String.eqb v "tvshows"
                || String.eqb v "search" then
          ret (set_currentView "main" m, nil_cmd)
        else update_view m msg
      else update_view m msg
  | WindowSizeMsg Width Height =>
      let h := frame_h in
      let v := frame_v in
      let m := set_mainList (list_SetSize (Width - h) (Height - v) (mainList m)) m in
      let m := set_moviesList (list_SetSize (Width - h) (Height - v) (moviesList m)) m in
      let m := set_tvShowsList (list_SetSize (Width - h) (Height - v) (tvShowsList m)) m in
      let m := set_seasonsList (list_SetSize (Width - h) (Height - v) (seasonsList m)) m in
      let m := set_episodesList (list_SetSize (Width - h) (Height - v) (episodesList m)) m in
      let m := set_searchList (list_SetSize (Width - h) (Height - v) (searchList m)) m in
      update_view m msg
  | fetchMoviesMsg items =>
      ret (set_moviesList (list_SetItems (convertToListItems items) (moviesList m)) m,
           nil_cmd)
  | fetchTVShowsMsg items =>
      ret (set_tvShowsList (list_SetItems (convertToListItems items) (tvShowsList m)) m,
           nil_cmd)
  | fetchSeasonsMsg items =>
      ret (set_seasonsList (list_SetItems (convertToListItems items) (seasonsList m)) m,
           nil_cmd)
  | fetchEpisodesMsg items =>
      ret (set_episodesList (list_SetItems (convertToListItems items) (episodesList m)) m,
           nil_cmd)
  | searchResultsMsg items =>
      ret (set_searchList (list_SetItems (convertToListItems items) (searchList m)) m,
           nil_cmd)
  | errorMsg e => ret (set_err (Some e) m, nil_cmd)
  | OtherMsg _ => update_view m msg
  end.

(** [fmt.Sprintf("Error: %v\n\nPress any key to exit.", m.err)]. *)
Definition error_screen (e : Error) : string :=
  "Error: " +:+ e +:+ newline +:+ newline +:+ "Press any key to exit.".

(** [Model.View], lines 429-465; [None] is the panic of an index out of
    range. *)
Definition View m : option string :=
  match err m with
  | Some e => Some (error_screen e)
  | None =>
      let v := currentView m in
      if String.eqb v "main" then Some (list_View (mainList m))
      else if String.eqb v "movies" then Some (list_View (moviesList m))
      else if String.eqb v "tvshows" then Some (list_View (tvShowsList m))
      else if String.eqb v "seasons" then Some (list_View (seasonsList m))
      else if String.eqb v "episodes" then Some (list_View (episodesList m))
      else if String.eqb v "search" then
        if Nat.ltb 0 (length (list_Items (searchList m)))
        then Some (list_View (searchList m))
        else Some ("Search: " +:+ ti_View (searchInput m) +:+ newline +:+ newline
                   +:+ "Type a search query and press Enter")
      else if String.eqb v "config" then
        match configInputs m !! 0%nat, configInputs m !! 1%nat with
        | Some in0, Some in1 =>
            Some ("Configure Jellyfin Connection" +:+ newline +:+ newline
                  +:+ "Server URL: " +:+ ti_View in0 +:+ newline +:+ newline
                  +:+ "API Key: " +:+ ti_View in1 +:+ newline +:+ newline
                  +:+ "(Press Enter to save and return to main menu)")
        | _, _ => None
        end
      else Some "Unknown view"
  end.

(** The events of a session, one after the other. *)
Fixpoint run_events m (msgs : list Msg) : Eff (Model L T) :=
  match msgs with
  | [] => ret m
  | msg :: rest =>
      let* r := Update m msg in
      run_events (fst r) rest
  end.

(** ** initialModel (main.go, lines 64-137) *)

Definition default_config : Config :=
  mkConfig "https://jellyfin.example.com" "your_api_key_here".

Definition mainItems : list Item :=
  [ mkMediaItem "" "Movies" "category" "" "" "" 0 "";
    mkMediaItem "" "TV Shows" "category" "" "" "" 0 "";
    mkMediaItem "" "Search" "action" "" "" "" 0 "";
    mkMediaItem "" "Configure" "action" "" "" "" 0 "" ].

Definition initialModel (fs : FS) : Model L T * FS :=
  let (config, fs) :=
    match loadConfig fs with
    | inr config => (config, fs)
    | inl _ => (default_config, snd (saveConfig default_config fs))
    end in
  let mainList := list_SetTitle "Jellyfin TUI" (list_New mainItems 0 0) in
  let moviesList := list_SetTitle "Movies" (list_New [] 0 0) in
  let tvShowsList := list_SetTitle "TV Shows" (list_New [] 0 0) in
  let seasonsList := list_SetTitle "Seasons" (list_New [] 0 0) in
  let episodesList := list_SetTitle "Episodes" (list_New [] 0 0) in
  let searchInput :=
    ti_Focus (ti_SetPlaceholder "Search for movies and TV shows..." ti_New) in
  let searchList := list_SetTitle "Search Results" (list_New [] 0 0) in
  let serverInput :=
    ti_SetValue (ServerURL config)
      (ti_SetWidth 40 (ti_Focus (ti_SetPlaceholder "Jellyfin Server URL" ti_New))) in
  let apiKeyInput :=
    ti_SetValue (APIKey config)
      (ti_SetWidth 40 (ti_SetPlaceholder "Jellyfin API Key" ti_New)) in
  let configInputs := [serverInput; apiKeyInput] in
  ({| config := config;
      currentView := "main";
      mainList := mainList;
      moviesList := moviesList;
      tvShowsList := tvShowsList;
      seasonsList := seasonsList;
      episodesList := episodesList;
      searchInput := searchInput;
      searchList := searchList;
      configInputs := configInputs;
      currentItem := MediaItem_zero;
      err := None |}, fs).
End App.

(** ** Notions the statements use *)

Section Notions.
Context {L T : Type} `{!ListWidget L} `{!TextInput T}.
Implicit Type m : Model L T.

(** The list a view shows, as [View] pairs them. *)
Definition buffer (v : string) m : option L :=
  if String.eqb v "main" then Some (mainList m)
  else if String.eqb v "movies" then Some (moviesList m)
  else if String.eqb v "tvshows" then Some (tvShowsList m)
  else if String.eqb v "seasons" then Some (seasonsList m)
  else if String.eqb v "episodes" then Some (episodesList m)
  else if String.eqb v "search" then Some (searchList m)
  else None.

(** The view a successful fetch result is for, and its records. *)
Definition fetch_result (msg : Msg) : option (string * list MediaItem) :=
  match msg with
  | fetchMoviesMsg items => Some ("movies", items)
  | fetchTVShowsMsg items => Some ("tvshows", items)
  | fetchSeasonsMsg items => Some ("seasons", items)
  | fetchEpisodesMsg items => Some ("episodes", items)
  | searchResultsMsg items => Some ("search", items)
  | _ => None
  end.

(** The record a key lands on: what the list has selected once it has
    handled the key, as every view reads it. *)
Definition selection (msg : Msg) (l : L) : option Item :=
  list_SelectedItem (fst (list_Update msg l)).

(** [configInputs] holds the two inputs [initialModel] puts there. *)
Definition two_inputs m : Prop := (2 <= length (configInputs m))%nat.

(** A step from [m] to [m'] keeps an error on record. *)
Definition err_survives m m' : Prop := is_Some (err m) -> is_Some (err m').

(** A step returned, to a model that still has its two inputs. *)
Definition returns_two_inputs (r : option (Model L T * Cmd * FS)) : Prop :=
  exists m' c fs', r = Some ((m', c), fs') /\ two_inputs m'.

(** The views that list catalog records. *)
Definition catalog_view (v : string) : Prop :=
  v = "movies" \/ v = "tvshows" \/ v = "seasons" \/ v = "episodes"
  \/ v = "search".

(** The transitions that enter a view with a fetch: the state they start
    from, the view they enter and the command of the fetch. *)
Inductive enters_with_fetch m : string -> Cmd -> Prop :=
| enter_movies it :
    currentView m = "main" ->
    selection (KeyMsg "enter") (mainList m) = Some it ->
    ItemTitle it = "Movies" ->
    enters_with_fetch m "movies" (fetchMovies (config m))
| enter_tvshows it :
    currentView m = "main" ->
    selection (KeyMsg "enter") (mainList m) = Some it ->
    ItemTitle it = "TV Shows" ->
    enters_with_fetch m "tvshows" (fetchTVShows (config m))
| enter_seasons_of_movie it :
    currentView m = "movies" ->
    selection (KeyMsg "enter") (moviesList m) = Some it ->
    ID it <> "" ->
    enters_with_fetch m "seasons" (fetchSeasons (config m) (ID it))
| enter_seasons_of_show it :
    currentView m = "tvshows" ->
    selection (KeyMsg "enter") (tvShowsList m) = Some it ->
    ID it <> "" ->
    enters_with_fetch m "seasons" (fetchSeasons (config m) (ID it))
| enter_episodes it :
    currentView m = "seasons" ->
    selection (KeyMsg "enter") (seasonsList m) = Some it ->
    ID it <> "" ->
    enters_with_fetch m "episodes" (fetchEpisodes (config m) (ID it)).
End Notions.

(** ** Stand-ins for the libraries

    Small executable instances of the interfaces, to run the program on
    concrete inputs: a list with a cursor, a one-line input, a codec for the
    configuration file, and a server and a player that answer as told. *)

Module Plain.
Record list_Model := mkList {
  items : list Item;
  cursor : nat;
  title : string;
  width : Z;
  height : Z
}.

Definition list_step (msg : Msg) (l : list_Model) : list_Model * Cmd :=
  match msg with
  | KeyMsg key =>
      if String.eqb key "down" then
        (mkList (items l)
                (if Nat.ltb (S (cursor l)) (length (items l))
                 then S (cursor l) else cursor l)
                (title l) (width l) (height l), nil_cmd)
      else if String.eqb key "up" then
        (mkList (items l) (Nat.pred (cursor l)) (title l) (width l) (height l),
         nil_cmd)
      else (l, nil_cmd)
  | _ => (l, nil_cmd)
  end.

#[export] Instance list_widget : ListWidget list_Model := {|
  list_New := fun xs w h => mkList xs 0 "" w h;
  list_SetTitle := fun t l => mkList (items l) (cursor l) t (width l) (height l);
  list_Update := list_step;
  list_SelectedItem := fun l => items l !! cursor l;
  list_SetItems := fun xs l =>
    mkList xs (if Nat.ltb (cursor l) (length xs) then cursor l
               else Nat.pred (length xs))
           (title l) (width l) (height l);
  list_Items := items;
  list_SetSize := fun w h l => mkList (items l) (cursor l) (title l) w h;
  list_View := title
|}.

Record input_Model := mkInput {
  value : string;
  focus : bool;
  placeholder : string;
  input_width : Z
}.

(** A focused input appends a key of one character. *)
Definition input_step (msg : Msg) (i : input_Model) : input_Model * Cmd :=
  match msg with
  | KeyMsg key =>
      if focus i && Nat.eqb (String.length key) 1
      then (mkInput (value i +:+ key) (focus i) (placeholder i) (input_width i),
            nil_cmd)
      else (i, nil_cmd)
  | _ => (i, nil_cmd)
  end.

#[export] Instance text_input : TextInput input_Model := {|
  ti_New := mkInput "" false "" 0;
  ti_SetPlaceholder := fun p i => mkInput (value i) (focus i) p (input_width i);
  ti_SetWidth := fun w i => mkInput (value i) (focus i) (placeholder i) w;
  ti_Focus := fun i => mkInput (value i) true (placeholder i) (input_width i);
  ti_Blur := fun i => mkInput (value i) false (placeholder i) (input_width i);
  ti_Focused := focus;
  ti_SetValue := fun v i => mkInput v (focus i) (placeholder i) (input_width i);
  ti_Value := value;
  ti_Update := input_step;
  ti_View := value
|}.

(** The layout [json.MarshalIndent(config, "", "  ")] gives a [Config]
    whose strings need no escaping, and a reader of that layout. *)
Definition quote : string := String (ascii_of_nat 34) EmptyString.

Definition encode_Config (c : Config) : string :=
  "{" +:+ newline
  +:+ "  " +:+ quote +:+ "server_url" +:+ quote +:+ ": "
  +:+ quote +:+ ServerURL c +:+ quote +:+ "," +:+ newline
  +:+ "  " +:+ quote +:+ "api_key" +:+ quote +:+ ": "
  +:+ quote +:+ APIKey c +:+ quote +:+ newline
  +:+ "}".

Fixpoint strip_prefix (p s : string) : option string :=
  match p, s with
  | EmptyString, _ => Some s
  | String a p', String b s' => if Ascii.eqb a b then strip_prefix p' s' else None
  | String _ _, EmptyString => None
  end.

(** The text before the first quote, and the text after it. *)
Fixpoint until_quote (s : string) : option (string * string) :=
  match s with
  | EmptyString => None
  | String a s' =>
      if Ascii.eqb a (ascii_of_nat 34) then Some (EmptyString, s')
      else match until_quote s' with
           | Some (v, rest) => Some (String a v, rest)
           | None => None
           end
  end.

Definition decode_Config (data : string) : Error + Config :=
  let parsed :=
    s ← strip_prefix ("{" +:+ newline +:+ "  " +:+ quote +:+ "server_url"
                      +:+ quote +:+ ": " +:+ quote) data;
    '(url, s) ← until_quote s;
    s ← strip_prefix ("," +:+ newline +:+ "  " +:+ quote +:+ "api_key"
                      +:+ quote +:+ ": " +:+ quote) s;
    '(key, s) ← until_quote s;
    s ← strip_prefix (newline +:+ "}") s;
    Some (mkConfig url key) in
  match parsed with
  | Some c => inr c
  | None => inl "invalid character"
  end.

(** The codec, with a catalog decoder that reads [catalog] from any
    body. *)
Definition json (catalog : list jellyfin.MediaItem) : JSON := {|
  json_MarshalIndent := fun c => inr (encode_Config c);
  json_Unmarshal_Config := decode_Config;
  json_Unmarshal_Items := fun _ => inr catalog
|}.

(** A server that answers every request with [answer]. *)
Definition network (answer : Error + Response) : Network := {|
  http_Get := fun _ => answer;
  url_QueryEscape := fun q => q
|}.

(** A player whose start ends as [result]. *)
Definition exec (result : option Error) : Exec := {|
  exec_Start := fun _ _ => result
|}.

Definition ok_response : Error + Response := inr (mkResponse 200 "200 OK" (inr "{}")).

(** A writable file system with a home directory and nothing in it. *)
Definition home_dirs : gmap string Node :=
  <["/home/user" := Dir]> (<["/home" := Dir]> ∅).
Definition empty_fs : FS := mkFS (Some "/home/user") home_dirs false None.

Abbreviation model := (Model list_Model input_Model).
End Plain.

(** ** Sample sessions *)

Module Sample.
Import Plain.

(** The three episodes of the sorting scenario, as the server lists them;
    the third has no [IndexNumber] in the response. *)
Definition catalog : list jellyfin.MediaItem :=
  [ jellyfin.mkMediaItem "e1" "One" "Episode" "Video" [] 2;
    jellyfin.mkMediaItem "e2" "Two" "Episode" "Video" [] 1;
    jellyfin.mkMediaItem "e3" "Three" "Episode" "Video" [] 0 ].

#[export] Instance codec : JSON := Plain.json catalog.
#[export] Instance server : Network := Plain.network Plain.ok_response.

Definition profile : Config := mkConfig "http://media.local:8096" "k3y".

Definition movie (id title : string) : MediaItem :=
  mkMediaItem id title "Video" "" ("http://media.local:8096/Videos/" +:+ id
                                   +:+ "/stream?api_key=k3y") "" 0 "".

(** The program as it starts on an empty file system. *)
Definition start : model := fst (initialModel empty_fs).

(** The same, after a fetch has failed. *)
Definition failed : model := set_err (Some "connection refused") start.

(** The Movies view with a placeholder row, a record whose id is empty. *)
Definition placeholder_row : model :=
  set_currentView "movies"
    (set_moviesList (list_SetItems [movie "" "Loading..."] (moviesList start))
       start).

(** The Episodes view on two episodes. *)
Definition watching : model :=
  set_currentView "episodes"
    (set_episodesList
       (list_SetItems [movie "e1" "One"; movie "e2" "Two"] (episodesList start))
       start).

(** The Search view with a result on screen: without and with a query in
    the input. *)
Definition results : model :=
  set_currentView "search"
    (set_searchList (list_SetItems [movie "m1" "The Matrix"] (searchList start))
       start).
Definition results_with_query : model :=
  set_searchInput (ti_SetValue "matrix" (searchInput results)) results.
End Sample.

(** ** Statements the code does not meet, as the specification words them *)


Section AsStated.
Context {L T : Type} `{!ListWidget L} `{!TextInput T} `{!JSON}.
Implicit Type m : Model L T.

(** Entering a view with a fetch clears [err]. *)
Definition enter_clears_err m (V : string) (F : Cmd) (fs : FS) : Prop :=
  enters_with_fetch m V F ->
  exists m',
    Update m (KeyMsg "enter") fs = Some ((m', F), fs)
    /\ currentView m' = V
    /\ err m' = None.

(** A successful fetch result resets [err]. *)
Definition fetch_result_clears_err m (msg : Msg) (fs : FS) : Prop :=
  is_Some (err m) ->
  is_Some (fetch_result msg) ->
  exists m' c,
    Update m msg fs = Some ((m', c), fs) /\ err m' = None.

(** In every view that shows a list, the main menu included, enter on a
    record whose id is empty changes neither the view nor the
    drilled-into record. *)
Definition empty_id_is_noop_everywhere m (fs : FS) : Prop :=
  forall (l : L) (it : Item),
    buffer (currentView m) m = Some l ->
    selection (KeyMsg "enter") l = Some it ->
    ID it = "" ->
    exists m' c,
      Update m (KeyMsg "enter") fs = Some ((m', c), fs)
      /\ currentView m' = currentView m
      /\ currentItem m' = currentItem m.

(** In the Episodes view, and in the Search view whatever the query, with
    results on screen, enter on a record with an id plays it. *)
Definition enter_always_plays m (fs : FS) : Prop :=
  forall it : Item,
    ID it <> "" ->
    (currentView m = "episodes"
     /\ selection (KeyMsg "enter") (episodesList m) = Some it)
    \/ (currentView m = "search"
        /\ list_Items (searchList m) <> []
        /\ selection (KeyMsg "enter") (searchList m) = Some it) ->
    exists m',
      Update m (KeyMsg "enter") fs = Some ((m', playMedia it), fs)
      /\ currentView m' = currentView m.

End AsStated.

(** ** Notions of the further properties *)

(** The view whose transition issues a fetch command. *)
Definition target_of_cmd (c : Cmd) : option string :=
  match c with
  | fetchMovies _ => Some "movies"
  | fetchTVShows _ => Some "tvshows"
  | fetchSeasons _ _ => Some "seasons"
  | fetchEpisodes _ _ => Some "episodes"
  | searchMedia _ _ => Some "search"
  | _ => None
  end.

Section SessionNotions.
Context {L T : Type} `{!ListWidget L} `{!TextInput T} `{!JSON}.
Implicit Type m : Model L T.

(** The seven views [Update] and [View] know. *)
Definition known_view (v : string) : Prop :=
  v = "main" \/ catalog_view v \/ v = "config".

(** What one pass through the switch on the view does to the model and
    the file system, whatever the view and the message: the inputs stay as
    many; the view changes on enter only, and to a view the program knows;
    the drilled-into record changes on enter only; the file system, the
    configuration and [err] change on enter in the config view only. *)
Definition view_step_facts m (msg : Msg) m' (fs fs' : FS) : Prop :=
  length (configInputs m') = length (configInputs m)
  /\ (currentView m' = currentView m
      \/ (is_enter msg = true /\ known_view (currentView m')))
  /\ (is_enter msg = false -> currentItem m' = currentItem m)
  /\ ((fs' = fs /\ config m' = config m /\ err m' = err m)
      \/ (currentView m = "config" /\ is_enter msg = true)).

(** The same for a whole step: esc changes the view too, and a failed
    fetch result sets [err]. *)
Definition step_facts m (msg : Msg) m' (fs fs' : FS) : Prop :=
  length (configInputs m') = length (configInputs m)
  /\ (currentView m' = currentView m
      \/ ((msg = KeyMsg "enter" \/ msg = KeyMsg "esc")
          /\ known_view (currentView m')))
  /\ (msg <> KeyMsg "enter" -> currentItem m' = currentItem m)
  /\ ((fs' = fs /\ config m' = config m
       /\ (err m' = err m \/ exists e, msg = errorMsg e /\ err m' = Some e))
      \/ (currentView m = "config" /\ msg = KeyMsg "enter")).

(** The profile on disk is the profile the program runs with. *)
Definition disk_matches m (fs : FS) : Prop := loadConfig fs = inr (config m).

(** The profile a commit in the config view saves: the values of the
    first two inputs. *)
Definition entered_config m : option Config :=
  in0 ← configInputs m !! 0%nat;
  in1 ← configInputs m !! 1%nat;
  Some (mkConfig (ti_Value in0) (ti_Value in1)).

(** An input set to the text [v] holds it as given, focused or not. *)
Definition holds_text (v : string) : Prop :=
  forall t : T,
    ti_Value (ti_SetValue v t) = v
    /\ ti_Value (ti_Focus (ti_SetValue v t)) = v.

(** [Focus] and [Blur] do what their names say. *)
Definition focus_laws : Prop :=
  (forall t : T, ti_Focused (ti_Focus t) = true)
  /\ (forall t : T, ti_Focused (ti_Blur t) = false).
End SessionNotions.

(** ** More sample sessions *)

Module MoreSamples.
Import Plain Sample.

(** The main menu with the cursor on row [n]. *)
Definition menu_at (n : nat) : model :=
  set_mainList (mkList mainItems n "Jellyfin TUI" 0 0) start.

(** The Movies view on one movie. *)
Definition browsing : model :=
  set_currentView "movies"
    (set_moviesList (list_SetItems [movie "m1" "The Matrix"] (moviesList start))
       start).

(** The config view as Configure opens it at startup. *)
Definition configuring : model := set_currentView "config" start.

(** The Search view as it starts: no query, no results. *)
Definition idle_search : model := set_currentView "search" start.





(** A home that holds a saved profile. *)
Definition stored_fs (c : Config) : FS :=
  with_node
    (with_node
       (with_node empty_fs "/home/user/.config" Dir)
       "/home/user/.config/jellyfin-tui" Dir)
    "/home/user/.config/jellyfin-tui/config" (File (encode_Config c)).

(** The same on a device that fails a write after [k] bytes. *)
Definition failing_fs (c : Config) (k : nat) : FS :=
  mkFS (home (stored_fs c)) (nodes (stored_fs c)) false (Some k).

(** A server that cannot be reached, and a player that is not installed. *)
Definition unreachable : Network := Plain.network (inl "connection refused").
#[export] Instance no_player : Exec :=
  Plain.exec (Some "executable file not found in $PATH").
End MoreSamples.

(** * Properties *)

(** ** Reading [Update] *)

Lemma eqb_empty_false (s : string) : s <> "" -> String.eqb s "" = false.
Proof. intros Hs. apply String.eqb_neq. exact Hs. Qed.

Ltac inv_step H := inversion H; subst; clear H.

(** Split on whatever the code branches on next. *)
Ltac branch :=
  match goal with
  | H : context [match ?x with _ => _ end] |- _ =>
      first [ is_var x; destruct x | let E := fresh "E" in destruct x eqn:E ]
  | |- context [match ?x with _ => _ end] =>
      first [ is_var x; destruct x | let E := fresh "E" in destruct x eqn:E ]
  end.

Ltac run_code :=
  repeat (unfold ret, bind, index, at_index in *;
          cbn beta iota in *;
          try discriminate;
          try match goal with
              | H : Some _ = Some _ |- _ => inv_step H
              end;
          try branch).

Section Properties.
Context {L T : Type} `{!ListWidget L} `{!TextInput T} `{!JSON}.
Implicit Type m : Model L T.

Lemma Update_enter m :
  Update m (KeyMsg "enter") = update_view m (KeyMsg "enter").
Proof. reflexivity. Qed.


(** C7: a failed fetch result sets [err] to the error it carries and
    changes nothing else: the view, the drilled-into record, every list,
    the inputs, the configuration and the file system stay, and no
    command is issued. *)
Theorem error_result_only_sets_err m (e : Error) (fs : FS) :
  exists m',
    Update m (errorMsg e) fs = Some ((m', nil_cmd), fs)
    /\ err m' = Some e
    /\ currentView m' = currentView m
    /\ currentItem m' = currentItem m
    /\ (forall v, buffer v m' = buffer v m)
    /\ searchInput m' = searchInput m
    /\ configInputs m' = configInputs m
    /\ config m' = config m.
Proof.
  exists (set_err (Some e) m). repeat split.
Qed.

Lemma convertToListItems_same (items : list MediaItem) :
  convertToListItems items = items.
Proof. unfold convertToListItems. apply map_id. Qed.

Ltac other_buffers :=
  let v' := fresh "v" in
  let Hv := fresh "Hv" in
  intros v' Hv; unfold buffer; cbn;
  repeat match goal with
         | |- context [String.eqb v' ?s] =>
             destruct (String.eqb_spec v' s); [subst; try congruence |]
         end;
  reflexivity.

(** C6: a successful fetch result puts its records into the list of the
    view it is for, whatever view is active, and leaves the active view,
    the drilled-into record, every other list, [err], the inputs, the
    configuration and the file system as they were. *)
Theorem fetch_result_replaces_target_buffer
        m (msg : Msg) (v : string) (items : list MediaItem) (fs : FS) :
  fetch_result msg = Some (v, items) ->
  exists m',
    Update m msg fs = Some ((m', nil_cmd), fs)
    /\ buffer v m' = list_SetItems items <$> buffer v m
    /\ ((forall xs (l : L), list_Items (list_SetItems xs l) = xs) ->
        list_Items <$> buffer v m' = Some items)
    /\ (forall v', v' <> v -> buffer v' m' = buffer v' m)
    /\ currentView m' = currentView m
    /\ currentItem m' = currentItem m
    /\ err m' = err m
    /\ searchInput m' = searchInput m
    /\ configInputs m' = configInputs m
    /\ config m' = config m.
Proof.
  intros Hres.
  destruct msg; cbn in Hres; try discriminate; inv_step Hres;
    (eexists; split; [reflexivity |]);
    rewrite convertToListItems_same;
    (split; [reflexivity |]);
    (split; [intros Hlaw; cbn; now rewrite Hlaw |]);
    (split; [other_buffers |]);
    repeat split.
Qed.

Lemma fetch_result_step_err
      m (msg : Msg) (v : string) (items : list MediaItem) (fs : FS) :
  fetch_result msg = Some (v, items) ->
  exists m',
    Update m msg fs = Some ((m', nil_cmd), fs)
    /\ err m' = err m
    /\ buffer v m' = list_SetItems items <$> buffer v m.
Proof.
  intros Hres.
  destruct msg; cbn in Hres; try discriminate; inv_step Hres;
    (eexists; split; [reflexivity |]);
    rewrite convertToListItems_same; split; reflexivity.
Qed.

(** C2, as the code has it: a successful fetch result leaves [err] as it
    was, so a model that shows an error still shows it afterwards; the
    records are stored in the list of their view all the same. *)
Theorem fetch_result_keeps_err
        m (msg : Msg) (v : string) (items : list MediaItem) (e : Error) (fs : FS) :
  fetch_result msg = Some (v, items) ->
  err m = Some e ->
  exists m',
    Update m msg fs = Some ((m', nil_cmd), fs)
    /\ err m' = Some e
    /\ View m' = Some (error_screen e)
    /\ buffer v m' = list_SetItems items <$> buffer v m.
Proof.
  intros Hres He.
  destruct (fetch_result_step_err m msg v items fs Hres)
    as (m' & Hup & Herr & Hbuf).
  exists m'. split; [exact Hup |].
  rewrite He in Herr. split; [exact Herr |].
  split; [| exact Hbuf].
  unfold View. now rewrite Herr.
Qed.

(** *** [err] once set stays set *)

Ltac err_leaf :=
  unfold err_survives; cbn; try (intros; eauto; fail);
  intros; try assumption; eauto.

Lemma update_main_err m msg fs m' c fs' :
  update_main m msg fs = Some ((m', c), fs') -> err_survives m m'.
Proof. unfold update_main. intros Hup. run_code; err_leaf. Qed.

Lemma update_library_err m msg fs m' c fs' :
  update_library m msg fs = Some ((m', c), fs') -> err_survives m m'.
Proof. unfold update_library. intros Hup. run_code; err_leaf. Qed.

Lemma update_seasons_err m msg fs m' c fs' :
  update_seasons m msg fs = Some ((m', c), fs') -> err_survives m m'.
Proof. unfold update_seasons. intros Hup. run_code; err_leaf. Qed.

Lemma update_episodes_err m msg fs m' c fs' :
  update_episodes m msg fs = Some ((m', c), fs') -> err_survives m m'.
Proof. unfold update_episodes. intros Hup. run_code; err_leaf. Qed.

Lemma update_search_err m msg fs m' c fs' :
  update_search m msg fs = Some ((m', c), fs') -> err_survives m m'.
Proof.
  unfold update_search, update_search_results. intros Hup. run_code; err_leaf.
Qed.

Lemma update_config_err m msg fs m' c fs' :
  update_config m msg fs = Some ((m', c), fs') -> err_survives m m'.
Proof.
  unfold update_config, toggle_focus. intros Hup. run_code; err_leaf.
Qed.

Lemma update_view_err m msg fs m' c fs' :
  update_view m msg fs = Some ((m', c), fs') -> err_survives m m'.
Proof.
  unfold update_view. intros Hup.
  repeat match type of Hup with
         | context [if ?b then _ else _] => destruct b
         end;
    eauto using update_main_err, update_library_err, update_seasons_err,
      update_episodes_err, update_search_err, update_config_err.
  inv_step Hup. err_leaf.
Qed.

Lemma Update_err m msg fs m' c fs' :
  Update m msg fs = Some ((m', c), fs') -> err_survives m m'.
Proof.
  unfold Update. intros Hup.
  destruct msg;
    repeat match type of Hup with
           | context [if ?b then _ else _] => destruct b
           end;
    try (apply update_view_err in Hup; revert Hup; err_leaf; fail);
    try (inv_step Hup; err_leaf).
Qed.
(** *** [Update] returns *)

Lemma update_focused_length (msg : Msg) (inputs : list T) :
  length (fst (update_focused msg inputs)) = length inputs.
Proof.
  induction inputs as [| input rest IH]; cbn; [reflexivity |].
  destruct (ti_Focused input).
  - destruct (ti_Update msg input). reflexivity.
  - destruct (update_focused msg rest). cbn in *. now rewrite IH.
Qed.

Ltac total_leaf :=
  unfold returns_two_inputs, two_inputs in *;
  do 3 eexists; (split; [reflexivity |]); cbn;
  try match goal with
      | E : update_focused ?msg ?l = (?l', _) |- context [length ?l'] =>
          let Hlen := fresh "Hlen" in
          pose proof (update_focused_length msg l) as Hlen;
          rewrite E in Hlen; cbn in Hlen; rewrite Hlen
      end;
  cbn in *; lia.

Ltac short_inputs m :=
  let a := fresh "in0" in
  let b := fresh "in1" in
  let rest := fresh "rest" in
  unfold two_inputs; destruct m; cbn [configInputs];
  match goal with
  | |- (2 <= length ?l)%nat -> _ =>
      destruct l as [| a [| b rest]]; cbn [length]; intros ?; [lia | lia |]
  end.

Lemma update_config_returns m msg fs :
  two_inputs m -> returns_two_inputs (update_config m msg fs).
Proof.
  short_inputs m. unfold update_config, toggle_focus.
  run_code; total_leaf.
Qed.

Lemma update_main_returns m msg fs :
  two_inputs m -> returns_two_inputs (update_main m msg fs).
Proof.
  short_inputs m. unfold update_main.
  run_code; total_leaf.
Qed.

Lemma update_library_returns m msg fs :
  two_inputs m -> returns_two_inputs (update_library m msg fs).
Proof.
  intros Hm. unfold update_library. run_code; total_leaf.
Qed.

Lemma update_seasons_returns m msg fs :
  two_inputs m -> returns_two_inputs (update_seasons m msg fs).
Proof.
  intros Hm. unfold update_seasons. run_code; total_leaf.
Qed.

Lemma update_episodes_returns m msg fs :
  two_inputs m -> returns_two_inputs (update_episodes m msg fs).
Proof.
  intros Hm. unfold update_episodes. run_code; total_leaf.
Qed.

Lemma update_search_returns m msg fs :
  two_inputs m -> returns_two_inputs (update_search m msg fs).
Proof.
  intros Hm. unfold update_search, update_search_results.
  run_code; total_leaf.
Qed.

Lemma update_view_returns m msg fs :
  two_inputs m -> returns_two_inputs (update_view m msg fs).
Proof.
  intros Hm. unfold update_view.
  repeat match goal with
         | |- context [if ?b then _ else _] => destruct b
         end;
    eauto using update_main_returns, update_library_returns,
      update_seasons_returns, update_episodes_returns, update_search_returns,
      update_config_returns.
  total_leaf.
Qed.

Lemma Update_returns m msg fs :
  two_inputs m -> returns_two_inputs (Update m msg fs).
Proof.
  intros Hm. unfold Update.
  destruct msg;
    repeat match goal with
           | |- context [if ?b then _ else _] => destruct b
           end;
    try (apply update_view_returns; exact Hm);
    try total_leaf.
Qed.

Lemma run_events_returns (msgs : list Msg) : forall m fs,
  two_inputs m -> exists m' fs', run_events m msgs fs = Some (m', fs').
Proof.
  induction msgs as [| msg rest IH]; intros m fs Hm; cbn.
  - now exists m, fs.
  - destruct (Update_returns m msg fs Hm) as (m1 & c & fs1 & Hup & Hm1).
    unfold bind. rewrite Hup. cbn. now apply IH.
Qed.

Lemma run_events_err (msgs : list Msg) : forall m fs m' fs',
  run_events m msgs fs = Some (m', fs') -> err_survives m m'.
Proof.
  induction msgs as [| msg rest IH]; intros m fs m' fs' Hrun; cbn in Hrun.
  - unfold ret in Hrun. inv_step Hrun. now intros He.
  - unfold bind in Hrun.
    destruct (Update m msg fs) as [[[m1 c] fs1] |] eqn:Hup; [| discriminate].
    cbn in Hrun. intros He.
    eapply IH; [exact Hrun |].
    eapply Update_err; [exact Hup | exact He].
Qed.

(** C9: no event resets [err].  From a model that carries an error,
    whatever events follow, every model the session reaches still carries
    an error, and [View] shows that error instead of any view; and the
    session does go on, as long as the model has the two configuration
    inputs [initialModel] gives it. *)
Theorem err_is_never_reset m (msgs : list Msg) (fs : FS) (e : Error) :
  err m = Some e ->
  (forall m' fs',
      run_events m msgs fs = Some (m', fs') ->
      exists e', err m' = Some e' /\ View m' = Some (error_screen e'))
  /\ (two_inputs m -> exists m' fs', run_events m msgs fs = Some (m', fs')).
Proof.
  intros He. split.
  - intros m' fs' Hrun.
    destruct (run_events_err msgs m fs m' fs' Hrun) as [e' He'].
    { rewrite He. now exists e. }
    exists e'. split; [exact He' |].
    unfold View. now rewrite He'.
  - intros Hm. now apply run_events_returns.
Qed.

(** *** Selecting a record *)

Ltac enter_view Hv :=
  rewrite Update_enter; unfold update_view; rewrite Hv;
  cbn -[update_main update_library update_seasons update_episodes
        update_search update_config].

Ltac use_selection Hsel :=
  unfold selection in Hsel;
  match type of Hsel with
  | context [list_Update ?msg ?l] =>
      let l' := fresh "l" in
      let cmd := fresh "cmd" in
      destruct (list_Update msg l) as [l' cmd] eqn:?; cbn in Hsel |- *;
      rewrite ?Hsel
  end.

(** C1, as the code has it: a transition that enters view V with fetch F
    sets [currentView] to V and issues F, and leaves [err] as it was: an
    error recorded before is still there. *)
Theorem enter_view_with_fetch_keeps_err m (V : string) (F : Cmd) (fs : FS) :
  enters_with_fetch m V F ->
  exists m',
    Update m (KeyMsg "enter") fs = Some ((m', F), fs)
    /\ currentView m' = V
    /\ err m' = err m.
Proof.
  intros [it Hv Hsel Ht | it Hv Hsel Ht | it Hv Hsel Hid | it Hv Hsel Hid
         | it Hv Hsel Hid]; enter_view Hv.
  - unfold update_main. use_selection Hsel. rewrite Ht. cbn.
    eexists; repeat split.
  - unfold update_main. use_selection Hsel. rewrite Ht. cbn.
    eexists; repeat split.
  - unfold update_library. rewrite Hv. cbn. use_selection Hsel.
    rewrite (eqb_empty_false _ Hid). cbn. eexists; repeat split.
  - unfold update_library. rewrite Hv. cbn. use_selection Hsel.
    rewrite (eqb_empty_false _ Hid). cbn. eexists; repeat split.
  - unfold update_seasons. use_selection Hsel.
    rewrite (eqb_empty_false _ Hid). cbn. eexists; repeat split.
Qed.

(** C3, as the code has it: in the Movies, TV Shows, Seasons, Episodes
    and Search views, enter on a record whose id is empty changes neither
    [currentView] nor [currentItem].  (The rows of the main menu all have
    an empty id and are told apart by their title.) *)
Theorem empty_id_selection_is_noop m (l : L) (it : Item) (fs : FS) :
  catalog_view (currentView m) ->
  buffer (currentView m) m = Some l ->
  selection (KeyMsg "enter") l = Some it ->
  ID it = "" ->
  exists m' c,
    Update m (KeyMsg "enter") fs = Some ((m', c), fs)
    /\ currentView m' = currentView m
    /\ currentItem m' = currentItem m.
Proof.
  intros Hcat Hbuf Hsel Hid.
  destruct Hcat as [Hv | [Hv | [Hv | [Hv | Hv]]]];
    rewrite Hv in Hbuf; cbn in Hbuf; inv_step Hbuf; enter_view Hv.
  - unfold update_library. rewrite Hv. cbn. use_selection Hsel.
    rewrite Hid. cbn. do 2 eexists; repeat split; exact Hv.
  - unfold update_library. rewrite Hv. cbn. use_selection Hsel.
    rewrite Hid. cbn. do 2 eexists; repeat split; exact Hv.
  - unfold update_seasons. use_selection Hsel.
    rewrite Hid. cbn. do 2 eexists; repeat split; exact Hv.
  - unfold update_episodes. use_selection Hsel.
    rewrite Hid. cbn. do 2 eexists; repeat split; exact Hv.
  - unfold update_search, update_search_results.
    destruct (String.eqb (ti_Value (searchInput m)) "");
      destruct (list_Items (searchList m)) as [| r rs]; cbn;
      try (use_selection Hsel; rewrite Hid; cbn);
      do 2 eexists; repeat split; exact Hv.
Qed.

(** What enter does on a record with a non-empty id: it issues the play
    command for that record and leaves [currentView] in the Episodes view,
    and in the Search view when the query is empty and there are results;
    with a query in the search input, enter issues the search for that
    query, whatever is selected, and the model stays as it was. *)
Theorem enter_plays_unless_query m (fs : FS) :
  (forall it,
      ID it <> "" ->
      (currentView m = "episodes"
       /\ selection (KeyMsg "enter") (episodesList m) = Some it)
      \/ (currentView m = "search"
          /\ ti_Value (searchInput m) = ""
          /\ list_Items (searchList m) <> []
          /\ selection (KeyMsg "enter") (searchList m) = Some it) ->
      exists m',
        Update m (KeyMsg "enter") fs = Some ((m', playMedia it), fs)
        /\ currentView m' = currentView m)
  /\ (currentView m = "search" ->
      ti_Value (searchInput m) <> "" ->
      Update m (KeyMsg "enter") fs
      = Some ((m, searchMedia (config m) (ti_Value (searchInput m))), fs)).
Proof.
  split.
  - intros it Hid [[Hv Hsel] | (Hv & Hq & Hres & Hsel)]; enter_view Hv.
    + unfold update_episodes. use_selection Hsel.
      rewrite (eqb_empty_false _ Hid). cbn. eexists; repeat split; exact Hv.
    + unfold update_search, update_search_results. cbn. rewrite Hq. cbn.
      destruct (list_Items (searchList m)) as [| r rs] eqn:Hitems;
        [congruence |].
      cbn. use_selection Hsel.
      rewrite (eqb_empty_false _ Hid). cbn. eexists; repeat split; exact Hv.
  - intros Hv Hq. enter_view Hv.
    unfold update_search. cbn. now rewrite (eqb_empty_false _ Hq).
Qed.
End Properties.

(** ** Sorting the episodes *)

Section SortingFacts.
Context {A : Type}.

Lemma StronglySorted_weaken (R R' : A -> A -> Prop) (l : list A) :
  (forall x y, R x y -> R' x y) -> StronglySorted R l -> StronglySorted R' l.
Proof.
  intros Himp Hs. induction Hs as [| x l Hs IH Hall]; constructor.
  - exact IH.
  - eapply Forall_impl; [exact Hall |]. intros y. apply Himp.
Qed.

Lemma StronglySorted_lookup (R : A -> A -> Prop) (l : list A) :
  StronglySorted R l ->
  forall (i j : nat) a b,
    (i < j)%nat -> l !! i = Some a -> l !! j = Some b -> R a b.
Proof.
  intros Hs. induction Hs as [| x l Hs IH Hall]; intros i j a b Hij Hi Hj.
  - destruct i; discriminate.
  - destruct j as [| j]; [lia |]. cbn in Hj.
    destruct i as [| i]; cbn in Hi.
    + inv_step Hi. rewrite List.Forall_forall in Hall.
      apply Hall. apply list_elem_of_In. eapply list_elem_of_lookup_2. exact Hj.
    + eapply IH; [| exact Hi | exact Hj]. lia.
Qed.

Lemma StronglySorted_snoc (R : A -> A -> Prop) (l : list A) (x : A) :
  StronglySorted R l -> Forall (fun y => R y x) l ->
  StronglySorted R (l ++ [x]).
Proof.
  intros Hs. induction Hs as [| y l Hs IH Hall]; intros Hx; cbn.
  - repeat constructor.
  - inversion Hx as [| ? ? Hyx Hrest]; subst. constructor.
    + now apply IH.
    + apply Forall_app. split; [exact Hall | now constructor].
Qed.

Lemma StronglySorted_rev (R : A -> A -> Prop) (l : list A) :
  StronglySorted R l -> StronglySorted (fun x y => R y x) (rev l).
Proof.
  intros Hs. induction Hs as [| x l Hs IH Hall]; cbn; [constructor |].
  apply StronglySorted_snoc; [exact IH |].
  apply List.Forall_forall. intros y Hy. rewrite List.Forall_forall in Hall.
  apply Hall. now apply in_rev.
Qed.

(** Two sorted arrangements of the same elements are the same list, when
    no two of the elements are each before the other. *)
Lemma sorted_perm_unique (R : A -> A -> Prop) (l1 : list A) : forall l2,
  (forall x y, In x l1 -> In y l1 -> R x y -> R y x -> x = y) ->
  StronglySorted R l1 -> StronglySorted R l2 -> Permutation l1 l2 ->
  l1 = l2.
Proof.
  induction l1 as [| x l1 IH]; intros l2 Hanti Hs1 Hs2 Hp.
  - apply Permutation_nil in Hp. now subst.
  - destruct l2 as [| y l2].
    { apply Permutation_sym, Permutation_nil in Hp. discriminate. }
    inversion Hs1 as [| ? ? Hs1' Hall1]; subst.
    inversion Hs2 as [| ? ? Hs2' Hall2]; subst.
    rewrite List.Forall_forall in Hall1, Hall2.
    assert (Hxy : x = y).
    { assert (Hx : In x (y :: l2))
        by (eapply Permutation_in; [exact Hp | now left]).
      assert (Hy : In y (x :: l1))
        by (eapply Permutation_in; [apply Permutation_sym; exact Hp | now left]).
      destruct Hx as [Hx | Hx]; [now subst |].
      destruct Hy as [Hy | Hy]; [now subst |].
      apply Hanti; [now left | now right | now apply Hall1 | now apply Hall2]. }
    subst y. f_equal.
    apply IH; [| exact Hs1' | exact Hs2' | eapply Permutation_cons_inv; exact Hp].
    intros a b Ha Hb. apply Hanti; now right.
Qed.

Variable less : A -> A -> bool.

Lemma insert_leftwards_perm (x : A) (p : list A) :
  Permutation (x :: p) (insert_leftwards less x p).
Proof.
  induction p as [| y ys IH]; cbn; [reflexivity |].
  destruct (less x y); [| reflexivity].
  rewrite perm_swap. now constructor.
Qed.

Lemma fold_insert_perm (l : list A) : forall p,
  Permutation (l ++ p)
    (fold_left (fun prefix_rev x => insert_leftwards less x prefix_rev) l p).
Proof.
  induction l as [| x l IH]; intros p; cbn; [reflexivity |].
  rewrite <- IH. rewrite <- insert_leftwards_perm.
  apply Permutation_middle.
Qed.

Lemma insertionSort_perm (l : list A) : Permutation l (insertionSort less l).
Proof.
  unfold insertionSort. rewrite <- Permutation_rev.
  rewrite <- fold_insert_perm. now rewrite app_nil_r.
Qed.

Hypothesis less_strict_weak : strict_weak less.

Lemma insert_leftwards_sorted (x : A) (p : list A) :
  descending less p -> descending less (insert_leftwards less x p).
Proof.
  destruct less_strict_weak as [Hasym Htrans].
  unfold descending.
  intros Hs. induction Hs as [| y ys Hs IH Hall]; cbn.
  - repeat constructor.
  - destruct (less x y) eqn:Hxy.
    + constructor; [exact IH |].
      apply List.Forall_forall. intros z Hz.
      apply (Permutation_in _ (Permutation_sym (insert_leftwards_perm x ys))) in Hz.
      destruct Hz as [<- | Hz]; [now apply Hasym |].
      rewrite List.Forall_forall in Hall. now apply Hall.
    + constructor; [now constructor |].
      constructor; [exact Hxy |].
      apply List.Forall_forall. intros z Hz. rewrite List.Forall_forall in Hall.
      eapply Htrans; [apply Hall; exact Hz | exact Hxy].
Qed.

Lemma fold_insert_sorted (l : list A) : forall p,
  descending less p ->
  descending less
    (fold_left (fun prefix_rev x => insert_leftwards less x prefix_rev) l p).
Proof.
  induction l as [| x l IH]; intros p Hp; cbn; [exact Hp |].
  apply IH. now apply insert_leftwards_sorted.
Qed.

Lemma insertionSort_sorted (l : list A) :
  StronglySorted (fun x y => less y x = false) (insertionSort less l).
Proof.
  unfold insertionSort.
  apply (StronglySorted_rev (fun a b => less a b = false)).
  apply fold_insert_sorted. constructor.
Qed.
End SortingFacts.

(** Insertion sort keeps the promise of [sort.Slice]. *)
Lemma insertion_sort_contract : @sort_Slice_contract insertion_SortSlice.
Proof.
  intros A less l. split.
  - apply insertionSort_perm.
  - intros Hsw. now apply insertionSort_sorted.
Qed.

Lemma less_IndexNumber_strict_weak : strict_weak less_IndexNumber.
Proof.
  unfold less_IndexNumber. split.
  - intros x y Hxy. apply Z.ltb_lt in Hxy. apply Z.ltb_ge. lia.
  - intros x y z Hyx Hzy. apply Z.ltb_ge in Hyx, Hzy. apply Z.ltb_ge. lia.
Qed.

(** ** Failed fetches *)

Section FailedFetch.
Context `{!JSON} `{!Network} `{!SortSlice}.

(** X17: [fetchItems] fails when the request fails in transport, when
    the status is not 200 (the error then names the status), when the body
    cannot be read and when it does not decode; it returns the decoded
    items otherwise, and only then. *)
Lemma fetchItems_cases (c : jellyfin.Client) (endpoint : string) :
  match fetchItems c endpoint with
  | inl e =>
      http_Get endpoint = inl e
      \/ (exists resp,
             http_Get endpoint = inr resp
             /\ ((StatusCode resp <> 200
                  /\ e = "API request failed with status: " +:+ Status resp)
                 \/ (StatusCode resp = 200 /\ Body resp = inl e)
                 \/ (exists body,
                        StatusCode resp = 200 /\ Body resp = inr body
                        /\ json_Unmarshal_Items body = inl e)))
  | inr items =>
      exists resp body,
        http_Get endpoint = inr resp /\ StatusCode resp = 200
        /\ Body resp = inr body /\ json_Unmarshal_Items body = inr items
  end.
Proof.
  unfold fetchItems, http_StatusOK.
  destruct (http_Get endpoint) as [e | resp]; [now left |].
  destruct (Z.eqb_spec (StatusCode resp) 200) as [Hok | Hbad]; cbn.
  - destruct (Body resp) as [e | body] eqn:Hbody.
    + right. exists resp. split; [reflexivity |]. right. left. now split.
    + destruct (json_Unmarshal_Items body) as [e | items] eqn:Hdec.
      * right. exists resp. split; [reflexivity |]. right. right.
        exists body. now repeat split.
      * exists resp, body. now repeat split.
  - right. exists resp. split; [reflexivity |]. left. now split.
Qed.

(** X18: when the server cannot be reached, every fetch command
    delivers the transport error as an [errorMsg], never a list. *)
Lemma failed_fetch_delivers_errorMsg (config : Config) (e : Error) :
  (forall endpoint, http_Get endpoint = inl e) ->
  run_fetchMovies config = errorMsg e
  /\ run_fetchTVShows config = errorMsg e
  /\ (forall id, run_fetchSeasons config id = errorMsg e)
  /\ (forall id, run_fetchEpisodes config id = errorMsg e)
  /\ (forall q, run_searchMedia config q = errorMsg e).
Proof.
  intros Hdown.
  unfold run_fetchMovies, run_fetchTVShows, run_fetchSeasons,
    run_fetchEpisodes, run_searchMedia, GetMovies, GetTVShows, Search,
    FetchItems, fetchItems.
  repeat split; intros; now rewrite Hdown.
Qed.
End FailedFetch.

Section Episodes.
Context {L T : Type} `{!ListWidget L} `{!TextInput T}.
Context `{!JSON} `{!Network} `{!SortSlice}.

(** C5: whatever records the server returns for a season, the list
    [fetchEpisodes] hands to the Episodes view, which [Update] stores in
    [episodesList], holds the same records sorted non-decreasing by
    [IndexNumber]; numbers being non-negative, a record without a number
    (it reads as 0) never comes after a numbered one; and the records
    e1, e2, e3 numbered 2, 1 and none are stored as e3, e2, e1. *)
Theorem episodes_stored_sorted
        (config : Config) (seasonID : string) (raw : list jellyfin.MediaItem) :
  let client := jellyfin.NewClient (ServerURL config) (APIKey config) in
  sort_Slice_contract ->
  FetchItems client (episodes_endpoint config seasonID) = inr raw ->
  exists stored,
    run_fetchEpisodes config seasonID = fetchEpisodesMsg stored
    /\ (forall (m : Model L T) fs,
           exists m',
             Update m (fetchEpisodesMsg stored) fs = Some ((m', nil_cmd), fs)
             /\ episodesList m' = list_SetItems stored (episodesList m))
    /\ Permutation (map (episode_of client seasonID) raw) stored
    /\ StronglySorted (fun a b => IndexNumber a <= IndexNumber b) stored
    /\ (Forall (fun r => 0 <= jellyfin.IndexNumber r) raw ->
        forall (i j : nat) a b,
          (i < j)%nat -> stored !! i = Some a -> stored !! j = Some b ->
          IndexNumber b = 0 -> IndexNumber a = 0)
    /\ (forall r1 r2 r3,
           raw = [r1; r2; r3] ->
           jellyfin.IndexNumber r1 = 2 ->
           jellyfin.IndexNumber r2 = 1 ->
           jellyfin.IndexNumber r3 = 0 ->
           stored = [episode_of client seasonID r3;
                     episode_of client seasonID r2;
                     episode_of client seasonID r1]).
Proof.
  intros client Hsort Hfetch.
  set (eps := map (episode_of client seasonID) raw).
  destruct (Hsort MediaItem less_IndexNumber eps) as [Hperm Hsorted].
  specialize (Hsorted less_IndexNumber_strict_weak).
  assert (Hle : StronglySorted (fun a b => IndexNumber a <= IndexNumber b)
                  (sort_Slice MediaItem less_IndexNumber eps)).
  { eapply StronglySorted_weaken; [| exact Hsorted].
    intros x y Hyx. unfold less_IndexNumber in Hyx.
    now apply Z.ltb_ge in Hyx. }
  exists (sort_Slice MediaItem less_IndexNumber eps).
  split; [| split; [| split; [| split; [| split]]]].
  - unfold run_fetchEpisodes. fold client. now rewrite Hfetch.
  - intros m fs. eexists. split; [reflexivity |].
    cbn. now rewrite convertToListItems_same.
  - exact Hperm.
  - exact Hle.
  - intros Hnonneg i j a b Hij Hi Hj Hb.
    pose proof (StronglySorted_lookup _ _ Hle i j a b Hij Hi Hj) as Hab.
    cbn in Hab.
    assert (Ha : 0 <= IndexNumber a).
    { apply list_elem_of_lookup_2, list_elem_of_In in Hi.
      apply (Permutation_in _ (Permutation_sym Hperm)) in Hi.
      apply in_map_iff in Hi. destruct Hi as (r & <- & Hr).
      rewrite List.Forall_forall in Hnonneg. now apply Hnonneg. }
    lia.
  - intros r1 r2 r3 Hraw Hn1 Hn2 Hn3.
    symmetry.
    apply (sorted_perm_unique (fun a b => IndexNumber a <= IndexNumber b)).
    + intros x y Hx Hy Hxy Hyx.
      destruct Hx as [<- | [<- | [<- | []]]];
        destruct Hy as [<- | [<- | [<- | []]]];
        cbn in Hxy, Hyx; try reflexivity; lia.
    + repeat constructor; cbn; lia.
    + exact Hle.
    + rewrite <- Hperm. subst eps. rewrite Hraw.
      symmetry. apply (Permutation_rev (map (episode_of client seasonID) [r1; r2; r3])).
Qed.
End Episodes.

(** ** The configuration file *)

Lemma append_same_left (s t : string) : s +:+ t = s -> t = "".
Proof.
  induction s as [| a s IH]; cbn; [trivial |].
  intros Heq. inversion Heq. auto.
Qed.

Lemma configFile_not_configDir (h : string) : configFile h <> configDir h.
Proof.
  unfold configFile. cbn [filepath_Join].
  intros Heq. apply append_same_left in Heq. discriminate.
Qed.

(** *** Paths and the directories above them *)

Lemma append_cons (x : ascii) (a b : string) :
  String x a +:+ b = String x (a +:+ b).
Proof. reflexivity. Qed.

Lemma append_nil_l (b : string) : "" +:+ b = b.
Proof. reflexivity. Qed.

Lemma string_append_assoc (a b c : string) : (a +:+ b) +:+ c = a +:+ (b +:+ c).
Proof.
  induction a as [| x a IH]; [reflexivity |].
  rewrite !append_cons. now f_equal.
Qed.

Lemma string_append_nil_r (a : string) : a +:+ "" = a.
Proof.
  induction a as [| x a IH]; [reflexivity |].
  rewrite append_cons. now f_equal.
Qed.

Lemma string_length_append (s t : string) :
  String.length (s +:+ t) = (String.length s + String.length t)%nat.
Proof.
  induction s as [| a s IH]; [reflexivity |].
  rewrite append_cons. simpl. now f_equal.
Qed.

Lemma ancestors_from_prefix (rest : string) : forall (pre q : string),
  In q (ancestors_from pre rest) ->
  exists a b, rest = a +:+ b /\ b <> "" /\ q = pre +:+ a.
Proof.
  induction rest as [| x rest IH]; intros pre q Hin; [contradiction |].
  cbn [ancestors_from] in Hin. apply in_app_or in Hin.
  destruct Hin as [Hin | Hin].
  - destruct (Ascii.eqb x "/"); [| contradiction].
    destruct pre as [| y pre]; [contradiction |].
    destruct Hin as [<- | []].
    exists "", (String x rest). split; [reflexivity |]. split; [discriminate |].
    now rewrite string_append_nil_r.
  - destruct (IH _ _ Hin) as (a & b & -> & Hb & ->).
    exists (String x a), b. split; [reflexivity |]. split; [exact Hb |].
    now rewrite string_append_assoc.
Qed.

Lemma parents_shorter (p q : string) :
  In q (parents p) -> (String.length q < String.length p)%nat.
Proof.
  unfold parents. intros Hin. apply in_rev in Hin.
  destruct (ancestors_from_prefix _ _ _ Hin) as (a & b & -> & Hb & ->).
  rewrite append_nil_l, string_length_append.
  destruct b; [congruence |]. simpl. lia.
Qed.

Lemma ancestors_from_app (a c : string) : forall pre : string,
  ancestors_from pre (a +:+ String "/" c)
  = (ancestors_from pre a
     ++ match pre +:+ a with
        | EmptyString => []
        | dir => [dir]
        end
     ++ ancestors_from ((pre +:+ a) +:+ "/") c)%list.
Proof.
  induction a as [| x a IH]; intros pre.
  - rewrite append_nil_l, string_append_nil_r. now destruct pre.
  - rewrite append_cons. cbn [ancestors_from]. rewrite IH.
    rewrite !string_append_assoc, !append_cons, !append_nil_l.
    now rewrite <- app_assoc.
Qed.

Lemma configDir_not_empty (h : string) : configDir h <> "".
Proof.
  unfold configDir. cbn [filepath_Join]. intros Heq.
  apply (f_equal String.length) in Heq.
  rewrite string_length_append in Heq. simpl in Heq. lia.
Qed.

Lemma parents_configFile (h : string) :
  parents (configFile h) = configDir h :: parents (configDir h).
Proof.
  unfold parents, configFile. cbn [filepath_Join].
  change (configDir h +:+ "/" +:+ "config")
    with (configDir h +:+ String "/" "config").
  rewrite ancestors_from_app, append_nil_l.
  pose proof (configDir_not_empty h) as Hne.
  destruct (configDir h) as [| x d] eqn:Hd; [congruence |].
  change (ancestors_from (String x d +:+ "/") "config") with (@nil string).
  rewrite app_nil_r, rev_app_distr. reflexivity.
Qed.

Lemma configFile_not_above (h : string) :
  ~ In (configFile h) (configDir h :: parents (configDir h)).
Proof.
  intros [Heq | Hin].
  - now apply (configFile_not_configDir h).
  - apply parents_shorter in Hin. revert Hin.
    unfold configFile. cbn [filepath_Join].
    rewrite string_length_append. lia.
Qed.

(** *** Making directories *)

Ltac adds_parts :=
  unfold only_adds_dirs; refine (conj _ (conj _ (conj _ (conj _ _)))).

Lemma only_adds_dirs_refl (fs : FS) (places : list string) :
  only_adds_dirs fs fs places.
Proof.
  adds_parts; auto. intros q n Hnone Hsome. congruence.
Qed.

Lemma os_Mkdir_adds (fs fs' : FS) (p : string) (r : option Error) :
  os_Mkdir fs p = (r, fs') ->
  only_adds_dirs fs fs' [p] /\ (r = None -> nodes fs' !! p = Some Dir).
Proof.
  unfold os_Mkdir.
  destruct (nodes fs !! p) as [n |] eqn:Hp.
  { intros Hmk. inv_step Hmk. split; [apply only_adds_dirs_refl | discriminate]. }
  destruct (parent_error fs p) as [why |].
  { intros Hmk. inv_step Hmk. split; [apply only_adds_dirs_refl | discriminate]. }
  destruct (readonly fs) eqn:Hro.
  { intros Hmk. inv_step Hmk. split; [apply only_adds_dirs_refl | discriminate]. }
  intros Hmk. inv_step Hmk. split.
  - adds_parts; unfold with_node; cbn [home readonly write_fails_after nodes]; auto.
    + intros q n Hq. rewrite lookup_insert_ne; [exact Hq | congruence].
    + intros q n Hnone Hsome.
      destruct (decide (p = q)) as [-> | Hne].
      * rewrite lookup_insert_eq in Hsome. split; [congruence | now left].
      * rewrite lookup_insert_ne in Hsome by exact Hne. congruence.
  - intros _. cbn. apply lookup_insert_eq.
Qed.

Lemma mkdirAll_chain_adds (chain : list string) : forall (fs fs' : FS) r,
  mkdirAll_chain fs chain = (r, fs') ->
  only_adds_dirs fs fs' chain
  /\ (r = None -> forall p above, chain = p :: above -> nodes fs' !! p = Some Dir).
Proof.
  induction chain as [| p above IH]; intros fs fs' r Hmk; cbn in Hmk.
  - inv_step Hmk. split; [apply only_adds_dirs_refl | discriminate].
  - destruct (nodes fs !! p) as [[| d] |] eqn:Hp.
    + inv_step Hmk. split; [apply only_adds_dirs_refl |].
      intros _ p' above' Heq. now inv_step Heq.
    + inv_step Hmk. split; [apply only_adds_dirs_refl | discriminate].
    + destruct (mkdirAll_chain fs above) as [[e |] fs1] eqn:Habove.
      * inv_step Hmk.
        destruct (IH _ _ _ Habove) as [(Hh & Hro & Hw & Hkeep & Hnew) _].
        split; [| discriminate].
        adds_parts; auto.
        intros q n Hnone Hsome.
        destruct (Hnew q n Hnone Hsome) as [Hn Hin].
        split; [exact Hn | now right].
      * destruct (IH _ _ _ Habove) as [(Hh & Hro & Hw & Hkeep & Hnew) _].
        destruct (os_Mkdir_adds _ _ _ _ Hmk)
          as [(Hh' & Hro' & Hw' & Hkeep' & Hnew') Hdone].
        split.
        -- adds_parts; try congruence.
           ++ intros q n Hq. apply Hkeep'. now apply Hkeep.
           ++ intros q n Hnone Hsome.
              destruct (nodes fs1 !! q) as [n1 |] eqn:Hq1.
              ** destruct (Hnew q n1 Hnone Hq1) as [-> Hin].
                 apply Hkeep' in Hq1.
                 split; [congruence | now right].
              ** destruct (Hnew' q n Hq1 Hsome) as [Hn [<- | []]].
                 split; [exact Hn | now left].
        -- intros Hr p' above' Heq. inv_step Heq. now apply Hdone.
Qed.

Lemma os_MkdirAll_adds (fs fs' : FS) (p : string) (r : option Error) :
  os_MkdirAll fs p = (r, fs') ->
  only_adds_dirs fs fs' (p :: parents p)
  /\ (r = None -> nodes fs' !! p = Some Dir).
Proof.
  unfold os_MkdirAll. intros Hmk.
  destruct (mkdirAll_chain_adds _ _ _ _ Hmk) as [Hadds Hdone].
  split; [exact Hadds |]. intros Hr. now apply (Hdone Hr p (parents p)).
Qed.

Lemma os_MkdirAll_keeps_configFile (fs fs' : FS) (h : string) (r : option Error) :
  os_MkdirAll fs (configDir h) = (r, fs') ->
  nodes fs' !! configFile h = nodes fs !! configFile h.
Proof.
  intros Hmk.
  destruct (os_MkdirAll_adds _ _ _ _ Hmk) as [(_ & _ & _ & Hkeep & Hnew) _].
  destruct (nodes fs !! configFile h) as [n |] eqn:Hf; [now apply Hkeep |].
  destruct (nodes fs' !! configFile h) as [n' |] eqn:Hf'; [| reflexivity].
  destruct (Hnew _ _ Hf Hf') as [_ Hin].
  now destruct (configFile_not_above h).
Qed.

(** *** Writing a file *)

Lemma os_WriteFile_done (fs fs' : FS) (path data : string) :
  os_WriteFile fs path data = (None, fs') ->
  readonly fs = false
  /\ write_fails_after fs = None
  /\ fs' = with_node fs path (File data).
Proof.
  unfold os_WriteFile.
  destruct (nodes fs !! path) as [[| d] |];
    destruct (parent_error fs path) as [why |];
    destruct (readonly fs); destruct (write_fails_after fs) as [k |];
    intros Hwr; inv_step Hwr; auto.
Qed.

Section ConfigFileFacts.
Context `{!JSON}.

(** A save that returned no error found the home directory and a device
    that takes writes, encoded the profile, and left the directory and the
    file in place. *)
Lemma saveConfig_success_facts (c : Config) (fs fs' : FS) :
  saveConfig c fs = (None, fs') ->
  exists h data,
    home fs = Some h
    /\ home fs' = Some h
    /\ json_MarshalIndent c = inr data
    /\ readonly fs' = false
    /\ write_fails_after fs' = None
    /\ nodes fs' !! configDir h = Some Dir
    /\ nodes fs' !! configFile h = Some (File data).
Proof.
  unfold saveConfig, os_UserHomeDir.
  destruct (home fs) as [h |] eqn:Hhome; [| discriminate].
  destruct (os_MkdirAll fs (configDir h)) as [[e |] fs1] eqn:Hmk;
    [discriminate |].
  destruct (os_MkdirAll_adds _ _ _ _ Hmk) as [(Hh & Hro & Hw & _ & _) Hdir].
  specialize (Hdir eq_refl).
  destruct (json_MarshalIndent c) as [e | data]; [discriminate |].
  destruct (os_WriteFile fs1 (configFile h) data) as [[e |] fs2] eqn:Hwr;
    [discriminate |].
  intros Heq. inv_step Heq.
  destruct (os_WriteFile_done _ _ _ _ Hwr) as (Hro1 & Hw1 & ->).
  exists h, data.
  unfold with_node. cbn [home readonly write_fails_after nodes].
  split; [reflexivity |]. split; [congruence |]. split; [reflexivity |].
  split; [exact Hro1 |]. split; [exact Hw1 |]. split.
  - rewrite lookup_insert_ne by apply configFile_not_configDir. exact Hdir.
  - apply lookup_insert_eq.
Qed.

(** After a save that returned no error, a load returns what the codec
    reads from what it wrote. *)
Lemma load_after_save (c : Config) (fs fs' : FS) :
  saveConfig c fs = (None, fs') ->
  exists data,
    json_MarshalIndent c = inr data
    /\ loadConfig fs'
       = match json_Unmarshal_Config data with
         | inl e => inl ("failed to parse config file: " +:+ e)
         | inr config => inr config
         end.
Proof.
  intros Hsave.
  destruct (saveConfig_success_facts c fs fs' Hsave)
    as (h & data & _ & Hhome & Henc & _ & _ & _ & Hfile).
  exists data. split; [exact Henc |].
  unfold loadConfig, os_UserHomeDir, os_Stat_IsNotExist, os_ReadFile.
  now rewrite Hhome, Hfile.
Qed.

End ConfigFileFacts.

(** ** The properties on the sample sessions *)

Import Plain Sample.

Lemma enter_view_with_fetch_keeps_err_witness :
  enters_with_fetch failed "movies" (fetchMovies (config failed))
  /\ exists m',
       Update failed (KeyMsg "enter") empty_fs
       = Some ((m', fetchMovies (config failed)), empty_fs)
       /\ currentView m' = "movies"
       /\ err m' = err failed.
Proof.
  assert (Hgo : enters_with_fetch failed "movies" (fetchMovies (config failed))).
  { apply (enter_movies failed (mkMediaItem "" "Movies" "category" "" "" "" 0 ""));
      reflexivity. }
  split; [exact Hgo |].
  exact (enter_view_with_fetch_keeps_err
           failed "movies" (fetchMovies (config failed)) empty_fs Hgo).
Defined.

(** C1 as stated fails: selecting Movies in the main menu after a failed
    fetch enters the Movies view and issues the fetch, and the error is
    still recorded. *)
Lemma enter_movies_keeps_recorded_error :
  ~ enter_clears_err failed "movies" (fetchMovies (config failed)) empty_fs
  /\ err failed = Some "connection refused"
  /\ (fun r => (currentView (fst (fst r)), snd (fst r), err (fst (fst r))))
       <$> Update failed (KeyMsg "enter") empty_fs
     = Some ("movies", fetchMovies default_config, Some "connection refused").
Proof.
  split; [| split; reflexivity].
  intros Hclaim.
  destruct Hclaim as (m' & Hup & _ & Herr).
  - apply (enter_movies failed (mkMediaItem "" "Movies" "category" "" "" "" 0 ""));
      reflexivity.
  - vm_compute in Hup. inv_step Hup. discriminate Herr.
Qed.

Lemma fetch_result_keeps_err_witness :
  err failed = Some "connection refused"
  /\ exists m',
       Update failed (fetchMoviesMsg [movie "1" "A"; movie "2" "B"]) empty_fs
       = Some ((m', nil_cmd), empty_fs)
       /\ err m' = Some "connection refused"
       /\ View m' = Some (error_screen "connection refused")
       /\ buffer "movies" m'
          = list_SetItems [movie "1" "A"; movie "2" "B"] <$> buffer "movies" failed.
Proof.
  split; [reflexivity |].
  apply (fetch_result_keeps_err
           failed (fetchMoviesMsg [movie "1" "A"; movie "2" "B"]) "movies"
           [movie "1" "A"; movie "2" "B"] "connection refused" empty_fs);
    reflexivity.
Defined.

(** C2 as stated fails: the movies arrive after a failed fetch and the
    error is still recorded, and still what [View] shows. *)
Lemma fetched_movies_keep_recorded_error :
  ~ fetch_result_clears_err
      failed (fetchMoviesMsg [movie "1" "A"; movie "2" "B"]) empty_fs
  /\ (fun r => (err (fst (fst r)), View (fst (fst r))))
       <$> Update failed (fetchMoviesMsg [movie "1" "A"; movie "2" "B"]) empty_fs
     = Some (Some "connection refused",
             Some (error_screen "connection refused")).
Proof.
  split; [| reflexivity].
  intros Hclaim.
  destruct Hclaim as (m' & c & Hup & Herr).
  - eexists. reflexivity.
  - eexists. reflexivity.
  - vm_compute in Hup. inv_step Hup. discriminate Herr.
Qed.

Lemma empty_id_selection_is_noop_witness :
  exists m' c,
    Update placeholder_row (KeyMsg "enter") empty_fs = Some ((m', c), empty_fs)
    /\ currentView m' = currentView placeholder_row
    /\ currentItem m' = currentItem placeholder_row.
Proof.
  apply (empty_id_selection_is_noop
           placeholder_row (moviesList placeholder_row) (movie "" "Loading...")
           empty_fs).
  - left. reflexivity.
  - reflexivity.
  - reflexivity.
  - reflexivity.
Defined.

(** C3 as stated fails in the main menu: its first row, Movies, has an
    empty id, and enter on it leaves the main menu. *)
Lemma main_menu_row_has_empty_id_and_navigates :
  ~ empty_id_is_noop_everywhere start empty_fs
  /\ currentView start = "main"
  /\ ID <$> selection (KeyMsg "enter") (mainList start) = Some ""
  /\ (fun r => currentView (fst (fst r)))
       <$> Update start (KeyMsg "enter") empty_fs
     = Some "movies".
Proof.
  split; [| repeat split].
  intros Hclaim.
  destruct (Hclaim (mainList start)
                   (mkMediaItem "" "Movies" "category" "" "" "" 0 "")
                   eq_refl eq_refl eq_refl)
    as (m' & c & Hup & Hview & _).
  vm_compute in Hup. inv_step Hup. discriminate Hview.
Qed.

Lemma enter_plays_unless_query_witness :
  (exists m',
      Update watching (KeyMsg "enter") empty_fs
      = Some ((m', playMedia (movie "e1" "One")), empty_fs)
      /\ currentView m' = currentView watching)
  /\ (exists m',
         Update results (KeyMsg "enter") empty_fs
         = Some ((m', playMedia (movie "m1" "The Matrix")), empty_fs)
         /\ currentView m' = currentView results)
  /\ Update results_with_query (KeyMsg "enter") empty_fs
     = Some ((results_with_query,
              searchMedia (config results_with_query) "matrix"), empty_fs).
Proof.
  split; [| split].
  - apply (proj1 (enter_plays_unless_query watching empty_fs)
             (movie "e1" "One")).
    + discriminate.
    + left. split; reflexivity.
  - apply (proj1 (enter_plays_unless_query results empty_fs)
             (movie "m1" "The Matrix")).
    + discriminate.
    + right. split; [reflexivity |]. split; [reflexivity |].
      split; [discriminate | reflexivity].
  - refine (proj2 (enter_plays_unless_query results_with_query empty_fs)
              eq_refl _).
    discriminate.
Defined.

(** C4: in the Search view, with results on screen, enter on a record
    with an id is to play it, whatever the query input holds.  It does not:
    with "matrix" still in the input after the search that brought the
    results, and the result selected, [Update] returns at the query test
    (main.go, line 352) with the search command, before it looks at the
    list, and no play command is issued.  [View] shows the list, not the
    input, in this state. *)
Lemma enter_with_query_searches_again :
  ~ enter_always_plays results_with_query empty_fs
  /\ ti_Value (searchInput results_with_query) = "matrix"
  /\ selection (KeyMsg "enter") (searchList results_with_query)
     = Some (movie "m1" "The Matrix")
  /\ View results_with_query = Some (list_View (searchList results_with_query))
  /\ (fun r => snd (fst r)) <$> Update results_with_query (KeyMsg "enter") empty_fs
     = Some (searchMedia default_config "matrix").
Proof.
  split; [| repeat split].
  intros Hclaim.
  destruct (Hclaim (movie "m1" "The Matrix")) as (m' & Hup & _).
  - discriminate.
  - right. split; [reflexivity |]. split; [discriminate | reflexivity].
  - vm_compute in Hup. discriminate Hup.
Qed.

(** The inputs do take keys that reach them: in the Search view "x" ends
    up in the query, "q" does not. *)
Example x_is_typed_q_is_not :
  let searching := set_currentView "search" start in
  (fun r => (ti_Value (searchInput (fst (fst r))), snd (fst r)))
    <$> Update searching (KeyMsg "x") empty_fs = Some ("x", nil_cmd)
  /\ (fun r => (ti_Value (searchInput (fst (fst r))), snd (fst r)))
       <$> Update searching (KeyMsg "q") empty_fs = Some ("", Quit).
Proof. split; reflexivity. Qed.

Lemma episodes_stored_sorted_witness :
  exists stored,
    run_fetchEpisodes profile "S1" = fetchEpisodesMsg stored
    /\ map ID stored = ["e3"; "e2"; "e1"]
    /\ StronglySorted (fun a b => IndexNumber a <= IndexNumber b) stored.
Proof.
  assert (Hfetch : FetchItems
                     (jellyfin.NewClient (ServerURL profile) (APIKey profile))
                     (episodes_endpoint profile "S1") = inr catalog)
    by reflexivity.
  destruct (episodes_stored_sorted (L := list_Model) (T := input_Model)
              profile "S1" catalog insertion_sort_contract Hfetch)
    as (stored & Hrun & _ & _ & Hsorted & _ & Hscenario).
  exists stored. split; [exact Hrun |]. split; [| exact Hsorted].
  rewrite (Hscenario _ _ _ eq_refl eq_refl eq_refl eq_refl). reflexivity.
Defined.

Lemma fetch_result_replaces_target_buffer_witness :
  exists m',
    Update watching (fetchMoviesMsg [movie "1" "A"; movie "2" "B"]) empty_fs
    = Some ((m', nil_cmd), empty_fs)
    /\ list_Items (moviesList m') = [movie "1" "A"; movie "2" "B"]
    /\ episodesList m' = episodesList watching
    /\ currentView m' = "episodes"
    /\ currentItem m' = currentItem watching.
Proof.
  destruct (fetch_result_replaces_target_buffer
              watching (fetchMoviesMsg [movie "1" "A"; movie "2" "B"]) "movies"
              [movie "1" "A"; movie "2" "B"] empty_fs eq_refl)
    as (m' & Hup & _ & Hitems & Hothers & Hview & Hitem & _).
  exists m'. split; [exact Hup |].
  split.
  { specialize (Hitems (fun _ _ => eq_refl)). cbn in Hitems.
    now inversion Hitems. }
  split.
  { specialize (Hothers "episodes"). cbn in Hothers.
    assert (Hne : "episodes" <> "movies") by discriminate.
    specialize (Hothers Hne). now inversion Hothers. }
  split; [exact Hview | exact Hitem].
Defined.

Lemma err_is_never_reset_witness :
  exists m' fs' e',
    run_events failed
      [KeyMsg "enter"; fetchMoviesMsg [movie "1" "A"]; KeyMsg "esc"; KeyMsg "down"]
      empty_fs = Some (m', fs')
    /\ err m' = Some e'
    /\ View m' = Some (error_screen e').
Proof.
  destruct (err_is_never_reset
              failed
              [KeyMsg "enter"; fetchMoviesMsg [movie "1" "A"]; KeyMsg "esc";
               KeyMsg "down"]
              empty_fs "connection refused" eq_refl)
    as [Hkept Hruns].
  destruct Hruns as (m' & fs' & Hrun).
  { unfold two_inputs. vm_compute. lia. }
  destruct (Hkept m' fs' Hrun) as (e' & He' & Hview).
  exists m', fs', e'. auto.
Defined.




(** * Further properties *)

(** ** What a step can change *)

Lemma is_enter_true (msg : Msg) : is_enter msg = true -> msg = KeyMsg "enter".
Proof.
  destruct msg; cbn; try discriminate.
  intros Hk. apply String.eqb_eq in Hk. now subst.
Qed.

Lemma is_enter_key (key : string) : is_enter (KeyMsg key) = String.eqb key "enter".
Proof. reflexivity. Qed.

Ltac known_leaf :=
  unfold known_view, catalog_view; cbn; tauto.

Ltac facts_leaf :=
  unfold view_step_facts; cbn [configInputs currentView currentItem config err
    set_config set_currentView set_mainList set_moviesList set_tvShowsList
    set_seasonsList set_episodesList set_searchInput set_searchList
    set_configInputs set_currentItem set_err];
  rewrite ?length_insert;
  repeat match goal with
         | E : update_focused ?msg ?l = (?l', _) |- context [length ?l'] =>
             let Hlen := fresh "Hlen" in
             pose proof (update_focused_length msg l) as Hlen;
             rewrite E in Hlen; cbn [fst] in Hlen; rewrite Hlen; clear Hlen
         end;
  split; [reflexivity |];
  split; [first [left; reflexivity | right; split; [assumption | known_leaf]] |];
  split; [first [intros _; reflexivity | congruence] |];
  first [left; repeat split; reflexivity | right; split; assumption].

Ltac quiet_step :=
  split; [reflexivity |];
  split; [left; reflexivity |];
  split; [intros _; reflexivity |];
  left; split; [reflexivity |]; split; [reflexivity |]; left; reflexivity.

Section StepFacts.
Context {L T : Type} `{!ListWidget L} `{!TextInput T} `{!JSON}.
Implicit Type m : Model L T.

Lemma update_main_facts m msg fs m' c fs' :
  update_main m msg fs = Some ((m', c), fs') -> view_step_facts m msg m' fs fs'.
Proof. unfold update_main. intros Hup. run_code; facts_leaf. Qed.

Lemma update_library_facts m msg fs m' c fs' :
  update_library m msg fs = Some ((m', c), fs') -> view_step_facts m msg m' fs fs'.
Proof. unfold update_library. intros Hup. run_code; facts_leaf. Qed.

Lemma update_seasons_facts m msg fs m' c fs' :
  update_seasons m msg fs = Some ((m', c), fs') -> view_step_facts m msg m' fs fs'.
Proof. unfold update_seasons. intros Hup. run_code; facts_leaf. Qed.

Lemma update_episodes_facts m msg fs m' c fs' :
  update_episodes m msg fs = Some ((m', c), fs') -> view_step_facts m msg m' fs fs'.
Proof. unfold update_episodes. intros Hup. run_code; facts_leaf. Qed.

Lemma update_search_facts m msg fs m' c fs' :
  update_search m msg fs = Some ((m', c), fs') -> view_step_facts m msg m' fs fs'.
Proof.
  unfold update_search, update_search_results. intros Hup. run_code; facts_leaf.
Qed.
Lemma update_config_facts m msg fs m' c fs' :
  currentView m = "config" ->
  update_config m msg fs = Some ((m', c), fs') -> view_step_facts m msg m' fs fs'.
Proof.
  unfold update_config, toggle_focus. intros Hv Hup.
  run_code; try rewrite is_enter_key; facts_leaf.
Qed.

Lemma update_view_facts m msg fs m' c fs' :
  update_view m msg fs = Some ((m', c), fs') -> view_step_facts m msg m' fs fs'.
Proof.
  unfold update_view. intros Hup.
  destruct (String.eqb (currentView m) "main");
    [eapply update_main_facts; exact Hup |].
  destruct (String.eqb (currentView m) "movies" || String.eqb (currentView m) "tvshows");
    [eapply update_library_facts; exact Hup |].
  destruct (String.eqb (currentView m) "seasons");
    [eapply update_seasons_facts; exact Hup |].
  destruct (String.eqb (currentView m) "episodes");
    [eapply update_episodes_facts; exact Hup |].
  destruct (String.eqb (currentView m) "search");
    [eapply update_search_facts; exact Hup |].
  destruct (String.eqb_spec (currentView m) "config") as [Hv | _];
    [eapply update_config_facts; [exact Hv | exact Hup] |].
  unfold ret in Hup. inv_step Hup. facts_leaf.
Qed.

Lemma view_step_is_step m0 m msg m' fs fs' :
  configInputs m0 = configInputs m ->
  currentView m0 = currentView m ->
  currentItem m0 = currentItem m ->
  config m0 = config m ->
  err m0 = err m ->
  view_step_facts m0 msg m' fs fs' -> step_facts m msg m' fs fs'.
Proof.
  intros Hi Hv Hc Hcfg He (Hlen & Hview & Hitem & Heff).
  rewrite Hi in Hlen. rewrite Hv in Hview, Heff. rewrite Hc in Hitem.
  rewrite Hcfg, He in Heff.
  split; [exact Hlen |]. split; [| split].
  - destruct Hview as [Hsame | [Hent Hk]]; [now left | right].
    split; [left; now apply is_enter_true | exact Hk].
  - intros Hne. apply Hitem.
    destruct (is_enter msg) eqn:Hent; [| reflexivity].
    now apply is_enter_true in Hent.
  - destruct Heff as [(Hfs & Hcf & Herr) | [Hcv Hent]].
    + left. repeat split; auto.
    + right. split; [exact Hcv | now apply is_enter_true].
Qed.

Lemma Update_facts m msg fs m' c fs' :
  Update m msg fs = Some ((m', c), fs') -> step_facts m msg m' fs fs'.
Proof.
  unfold Update. intros Hup.
  destruct msg as [key | W H0 | items | items | items | items | items | e | tag].
  - destruct (String.eqb key "ctrl+c" || String.eqb key "q").
    { unfold ret in Hup. inv_step Hup. quiet_step. }
    destruct (String.eqb_spec key "esc") as [-> | _].
    + destruct (String.eqb (currentView m) "episodes");
        [| destruct (String.eqb (currentView m) "seasons");
           [| destruct (String.eqb (currentView m) "movies"
                        || String.eqb (currentView m) "tvshows"
                        || String.eqb (currentView m) "search")]];
        try (unfold ret in Hup; inv_step Hup;
             split; [reflexivity |];
             split; [right; split; [now right | known_leaf] |];
             split; [reflexivity |];
             left; repeat split; auto).
      apply update_view_facts in Hup.
      eapply view_step_is_step; [..| exact Hup]; reflexivity.
    + apply update_view_facts in Hup.
      eapply view_step_is_step; [..| exact Hup]; reflexivity.
  - apply update_view_facts in Hup.
    eapply view_step_is_step; [..| exact Hup]; reflexivity.
  - unfold ret in Hup. inv_step Hup. quiet_step.
  - unfold ret in Hup. inv_step Hup. quiet_step.
  - unfold ret in Hup. inv_step Hup. quiet_step.
  - unfold ret in Hup. inv_step Hup. quiet_step.
  - unfold ret in Hup. inv_step Hup. quiet_step.
  - unfold ret in Hup. inv_step Hup.
    split; [reflexivity |]. split; [now left |]. split; [reflexivity |].
    left. repeat split. right. now exists e.
  - apply update_view_facts in Hup.
    eapply view_step_is_step; [..| exact Hup]; reflexivity.
Qed.
End StepFacts.

Ltac at_view Hv :=
  rewrite Update_enter; unfold update_view; rewrite Hv;
  cbn -[update_main update_library update_seasons update_episodes
        update_search update_config].

Ltac with_selection Hsel :=
  unfold selection in Hsel;
  match type of Hsel with
  | context [list_Update ?msg ?l] =>
      let l' := fresh "l" in
      let cmd := fresh "cmd" in
      destruct (list_Update msg l) as [l' cmd] eqn:?; cbn in Hsel |- *;
      rewrite ?Hsel
  end.

Section Navigation.
Context {L T : Type} `{!ListWidget L} `{!TextInput T} `{!JSON}.
Implicit Type m : Model L T.

(** X1: the view and the drilled-into record change on enter and esc
    only: after any other message (another key, a resize, a fetch result,
    an error, a message of a widget) both are what they were. *)
Theorem navigation_only_on_enter_or_esc m msg fs m' c fs' :
  Update m msg fs = Some ((m', c), fs') ->
  msg <> KeyMsg "enter" ->
  msg <> KeyMsg "esc" ->
  currentView m' = currentView m /\ currentItem m' = currentItem m.
Proof.
  intros Hup Hent Hesc.
  destruct (Update_facts m msg fs m' c fs' Hup) as (_ & Hview & Hitem & _).
  split; [| now apply Hitem].
  destruct Hview as [Hsame | [[Hk | Hk] _]]; [exact Hsame | contradiction ..].
Qed.

(** X2: the file system and the live configuration change in one place
    only, enter in the config view; everywhere else a step leaves both, and
    leaves [err] too unless the message is a failed result, whose error it
    records. *)
Theorem only_a_commit_touches_disk_and_config m msg fs m' c fs' :
  Update m msg fs = Some ((m', c), fs') ->
  currentView m <> "config" \/ msg <> KeyMsg "enter" ->
  fs' = fs
  /\ config m' = config m
  /\ (err m' = err m \/ exists e, msg = errorMsg e /\ err m' = Some e).
Proof.
  intros Hup Hnot.
  destruct (Update_facts m msg fs m' c fs' Hup) as (_ & _ & _ & Heff).
  destruct Heff as [Hquiet | [Hv Hk]]; [exact Hquiet |].
  destruct Hnot; contradiction.
Qed.

Lemma run_events_invariant (msgs : list Msg) : forall m fs m' fs',
  run_events m msgs fs = Some (m', fs') ->
  length (configInputs m') = length (configInputs m)
  /\ (known_view (currentView m) -> known_view (currentView m')).
Proof.
  induction msgs as [| msg rest IH]; intros m fs m' fs' Hrun; cbn in Hrun.
  - unfold ret in Hrun. inv_step Hrun. auto.
  - unfold bind in Hrun.
    destruct (Update m msg fs) as [[[m1 c] fs1] |] eqn:Hup; [| discriminate].
    cbn in Hrun. destruct (IH _ _ _ _ Hrun) as [Hlen Hknown].
    destruct (Update_facts m msg fs m1 c fs1 Hup) as (Hlen1 & Hview & _).
    split; [congruence |].
    intros Hk. apply Hknown.
    destruct Hview as [Hsame | [_ Hk1]]; [now rewrite Hsame | exact Hk1].
Qed.

(** X3: a session never panics and never leaves the views the program
    knows: from the model [initialModel] builds, on any file system and
    after any sequence of messages, [Update] has returned every time, the
    model has its two configuration inputs, its view is one of the seven,
    and [View] renders it. *)
Theorem session_never_panics (fs : FS) (msgs : list Msg) :
  exists (m' : Model L T) fs',
    run_events (fst (initialModel fs)) msgs (snd (initialModel fs)) = Some (m', fs')
    /\ length (configInputs m') = 2%nat
    /\ known_view (currentView m')
    /\ is_Some (View m').
Proof.
  set (m0 := fst (initialModel fs) : Model L T).
  assert (Hlen0 : length (configInputs m0) = 2%nat).
  { subst m0. unfold initialModel. now destruct (loadConfig fs). }
  assert (Hview0 : currentView m0 = "main").
  { subst m0. unfold initialModel. now destruct (loadConfig fs). }
  destruct (run_events_returns msgs m0 (snd (initialModel fs))) as (m' & fs' & Hrun).
  { unfold two_inputs. rewrite Hlen0. lia. }
  destruct (run_events_invariant msgs _ _ _ _ Hrun) as [Hlen Hknown].
  exists m', fs'. split; [exact Hrun |].
  rewrite Hlen0 in Hlen. split; [exact Hlen |].
  assert (Hk : known_view (currentView m')).
  { apply Hknown. rewrite Hview0. now left. }
  split; [exact Hk |].
  unfold View. destruct (err m'); [eauto |].
  destruct Hk as [-> | [[-> | [-> | [-> | [-> | ->]]]] | ->]]; cbn; eauto.
  - destruct (list_Items (searchList m')); cbn; eauto.
  - destruct (configInputs m') as [| in0 [| in1 rest]]; cbn in Hlen;
      try discriminate; cbn; eauto.
Qed.

(** X4: esc goes back along fixed edges and changes nothing but the
    view: Episodes to Seasons, Seasons to TV Shows, Movies, TV Shows and
    Search to Main, with no command; in Main and in the config view esc is
    handed to the widget and the view stays. *)
Theorem esc_goes_back m (fs : FS) :
  (currentView m = "episodes" ->
   Update m (KeyMsg "esc") fs = Some ((set_currentView "seasons" m, nil_cmd), fs))
  /\ (currentView m = "seasons" ->
      Update m (KeyMsg "esc") fs = Some ((set_currentView "tvshows" m, nil_cmd), fs))
  /\ (currentView m = "movies" \/ currentView m = "tvshows"
      \/ currentView m = "search" ->
      Update m (KeyMsg "esc") fs = Some ((set_currentView "main" m, nil_cmd), fs))
  /\ (currentView m = "main" \/ currentView m = "config" ->
      forall m' c fs',
        Update m (KeyMsg "esc") fs = Some ((m', c), fs') ->
        currentView m' = currentView m /\ currentItem m' = currentItem m
        /\ fs' = fs /\ config m' = config m /\ err m' = err m).
Proof.
  split; [| split; [| split]].
  - intros Hv. cbn. now rewrite Hv.
  - intros Hv. cbn. now rewrite Hv.
  - intros [Hv | [Hv | Hv]]; cbn; now rewrite Hv.
  - intros Hv m' c fs' Hup.
    assert (Hview : update_view m (KeyMsg "esc") fs = Some ((m', c), fs')).
    { cbn in Hup. destruct Hv as [Hv | Hv]; rewrite Hv in Hup; exact Hup. }
    destruct (update_view_facts _ _ _ _ _ _ Hview) as (_ & Hcv & Hitem & Heff).
    destruct Hcv as [Hcv | [Hent _]]; [| discriminate Hent].
    destruct Heff as [(Hfs & Hcfg & Herr) | [_ Hent]]; [| discriminate Hent].
    repeat split; auto.
Qed.

Lemma drill_from_movies m (it : Item) (fs : FS) :
  currentView m = "movies" ->
  selection (KeyMsg "enter") (moviesList m) = Some it ->
  ID it <> "" ->
  Update m (KeyMsg "enter") fs
  = Some ((set_currentView "seasons"
             (set_currentItem it
                (set_moviesList (fst (list_Update (KeyMsg "enter") (moviesList m))) m)),
           fetchSeasons (config m) (ID it)), fs).
Proof.
  intros Hv Hsel Hid. at_view Hv.
  unfold update_library. rewrite Hv. cbn. with_selection Hsel.
  now rewrite (eqb_empty_false _ Hid).
Qed.

(** X5: going back does not retrace the way in.  A record opened from
    the Movies view leads to Seasons, and esc from there leads to the TV
    Shows view, not back to Movies; the record opened stays the
    drilled-into record. *)
Theorem back_from_a_movie_lands_in_tvshows m (it : Item) (fs : FS) :
  currentView m = "movies" ->
  selection (KeyMsg "enter") (moviesList m) = Some it ->
  ID it <> "" ->
  exists m',
    run_events m [KeyMsg "enter"; KeyMsg "esc"] fs = Some (m', fs)
    /\ currentView m' = "tvshows"
    /\ currentItem m' = it
    /\ moviesList m' = fst (list_Update (KeyMsg "enter") (moviesList m)).
Proof.
  intros Hv Hsel Hid.
  eexists. split.
  - cbn [run_events]. unfold bind.
    rewrite (drill_from_movies m it fs Hv Hsel Hid). cbn [fst].
    reflexivity.
  - cbn. repeat split.
Qed.
End Navigation.

(** ** The configuration file, further *)

Section ConfigFileMore.
Context `{!JSON}.

Lemma loadConfig_of_file (fs : FS) (h data : string) (c : Config) :
  home fs = Some h ->
  nodes fs !! configFile h = Some (File data) ->
  json_Unmarshal_Config data = inr c ->
  loadConfig fs = inr c.
Proof.
  intros Hhome Hnode Hdec.
  unfold loadConfig, os_UserHomeDir, os_Stat_IsNotExist, os_ReadFile.
  now rewrite Hhome, Hnode, Hdec.
Qed.

(** X6: [loadConfig] returns a profile exactly when the home directory
    is known, its config path holds a file, and the contents decode to
    that profile; a directory at the path, a missing file, an unknown home
    directory and contents that do not decode are all errors. *)
Theorem loadConfig_succeeds_iff (fs : FS) (c : Config) :
  loadConfig fs = inr c
  <-> exists h data,
        home fs = Some h
        /\ nodes fs !! configFile h = Some (File data)
        /\ json_Unmarshal_Config data = inr c.
Proof.
  unfold loadConfig, os_UserHomeDir, os_Stat_IsNotExist, os_ReadFile.
  split.
  - destruct (home fs) as [h |] eqn:Hhome; [| discriminate].
    destruct (nodes fs !! configFile h) as [[| data] |] eqn:Hnode;
      try discriminate.
    destruct (json_Unmarshal_Config data) as [e | c'] eqn:Hdec; [discriminate |].
    intros Hload. inv_step Hload. exists h, data. auto.
  - intros (h & data & Hhome & Hnode & Hdec).
    now rewrite Hhome, Hnode, Hdec.
Qed.

Lemma os_WriteFile_frame (fs fs' : FS) (path data : string) (r : option Error) :
  os_WriteFile fs path data = (r, fs') ->
  home fs' = home fs
  /\ readonly fs' = readonly fs
  /\ write_fails_after fs' = write_fails_after fs
  /\ (forall q, q <> path -> nodes fs' !! q = nodes fs !! q)
  /\ (nodes fs' !! path = nodes fs !! path
      \/ (r = None /\ nodes fs' !! path = Some (File data))
      \/ (exists k, write_fails_after fs = Some k
                    /\ nodes fs' !! path = Some (File (String.substring 0 k data)))).
Proof.
  unfold os_WriteFile.
  destruct (nodes fs !! path) as [[| d] |] eqn:Hnode;
    destruct (parent_error fs path) as [why |];
    destruct (readonly fs) eqn:Hro;
    destruct (write_fails_after fs) as [k |] eqn:Hk;
    intros Hwr; inv_step Hwr;
    unfold with_node; cbn [home readonly write_fails_after nodes];
    (split; [reflexivity |]); (split; [congruence |]);
    (split; [congruence |]);
    (split; [intros q Hq; rewrite ?lookup_insert_ne by congruence; reflexivity |]);
    rewrite ?lookup_insert_eq;
    first [ left; congruence
          | right; left; split; reflexivity
          | right; right; eexists; split; reflexivity ].
Qed.

(** What [saveConfig] does to a file system that has a home directory:
    [os.MkdirAll] takes it to [fs1], [os.WriteFile] from there to [fs']. *)
Lemma saveConfig_frame (c : Config) (fs fs' : FS) (r : option Error) (h : string) :
  home fs = Some h ->
  saveConfig c fs = (r, fs') ->
  exists fs1,
    only_adds_dirs fs fs1 (configDir h :: parents (configDir h))
    /\ home fs' = home fs1
    /\ readonly fs' = readonly fs1
    /\ write_fails_after fs' = write_fails_after fs1
    /\ (forall q, q <> configFile h -> nodes fs' !! q = nodes fs1 !! q)
    /\ (nodes fs' !! configFile h = nodes fs !! configFile h
        \/ (r = None /\ exists data, json_MarshalIndent c = inr data
                                     /\ nodes fs' !! configFile h = Some (File data))
        \/ (exists e k data,
               r = Some e
               /\ write_fails_after fs = Some k
               /\ json_MarshalIndent c = inr data
               /\ nodes fs' !! configFile h
                  = Some (File (String.substring 0 k data)))).
Proof.
  intros Hhome. unfold saveConfig, os_UserHomeDir. rewrite Hhome.
  destruct (os_MkdirAll fs (configDir h)) as [r1 fs1] eqn:Hmk.
  destruct (os_MkdirAll_adds _ _ _ _ Hmk) as [Hadds _].
  pose proof (os_MkdirAll_keeps_configFile _ _ _ _ Hmk) as Hfile.
  assert (Hstop : forall r0, (r0, fs1) = (r, fs') ->
            exists fs2,
              only_adds_dirs fs fs2 (configDir h :: parents (configDir h))
              /\ home fs' = home fs2
              /\ readonly fs' = readonly fs2
              /\ write_fails_after fs' = write_fails_after fs2
              /\ (forall q, q <> configFile h -> nodes fs' !! q = nodes fs2 !! q)
              /\ (nodes fs' !! configFile h = nodes fs !! configFile h
                  \/ (r = None /\ exists data, json_MarshalIndent c = inr data
                         /\ nodes fs' !! configFile h = Some (File data))
                  \/ (exists e k data,
                         r = Some e
                         /\ write_fails_after fs = Some k
                         /\ json_MarshalIndent c = inr data
                         /\ nodes fs' !! configFile h
                            = Some (File (String.substring 0 k data))))).
  { intros r0 Heq. inv_step Heq. exists fs'.
    split; [exact Hadds |]. do 4 (split; [reflexivity |]). now left. }
  destruct r1 as [e1 |]; [apply Hstop |].
  destruct (json_MarshalIndent c) as [e2 | data] eqn:Henc; [apply Hstop |].
  destruct (os_WriteFile fs1 (configFile h) data) as [r3 fs3] eqn:Hwr.
  destruct (os_WriteFile_frame _ _ _ _ _ Hwr)
    as (Hh3 & Hro3 & Hw3 & Hrest & Hnode).
  destruct Hadds as (Hh1 & Hro1 & Hw1 & Hkeep & Hnew).
  intros Hsave.
  assert (Hfs : fs3 = fs') by (destruct r3; now inv_step Hsave). subst fs3.
  exists fs1.
  split; [unfold only_adds_dirs; auto |].
  split; [exact Hh3 |]. split; [exact Hro3 |]. split; [exact Hw3 |].
  split; [exact Hrest |].
  destruct Hnode as [Hsame | [[-> Hdone] | (k & Hk & Hcut)]].
  - left. congruence.
  - right. left. inv_step Hsave. split; [reflexivity |]. now exists data.
  - destruct r3 as [e3 |].
    + right. right. inv_step Hsave.
      exists ("failed to write config file: " +:+ e3), k, data.
      repeat split; congruence.
    + apply os_WriteFile_done in Hwr. destruct Hwr as (_ & Hnone & _).
      congruence.
Qed.

Lemma saveConfig_keeps_device (c : Config) (fs fs' : FS) (r : option Error) :
  saveConfig c fs = (r, fs') -> write_fails_after fs' = write_fails_after fs.
Proof.
  intros Hsave.
  destruct (home fs) as [h |] eqn:Hhome.
  - destruct (saveConfig_frame c fs fs' r h Hhome Hsave)
      as (fs1 & (_ & _ & Hw1 & _) & _ & _ & Hw & _).
    congruence.
  - revert Hsave. unfold saveConfig, os_UserHomeDir. rewrite Hhome.
    intros Hsave. now inv_step Hsave.
Qed.


(** A save that fails on a device that does not fail in the middle of a
    write leaves what [loadConfig] returns as it was. *)
Lemma failed_save_keeps_load (c : Config) (fs fs' : FS) (e : Error) :
  write_fails_after fs = None ->
  saveConfig c fs = (Some e, fs') -> loadConfig fs' = loadConfig fs.
Proof.
  intros Hdev Hsave.
  destruct (home fs) as [h |] eqn:Hhome.
  - destruct (saveConfig_frame c fs fs' (Some e) h Hhome Hsave)
      as (fs1 & (Hh1 & _) & Hh & _ & _ & _ & Hnode).
    assert (Hsame : nodes fs' !! configFile h = nodes fs !! configFile h).
    { destruct Hnode as [Hsame | [[Hnone _] | (e' & k & data & _ & Hk & _)]];
        [exact Hsame | discriminate | congruence]. }
    unfold loadConfig, os_UserHomeDir, os_Stat_IsNotExist, os_ReadFile.
    now rewrite Hh, Hh1, Hhome, Hsame.
  - revert Hsave. unfold saveConfig, os_UserHomeDir. rewrite Hhome.
    intros Hsave. now inv_step Hsave.
Qed.


Lemma save_after_save (c1 c2 : Config) (fs fs1 : FS) (data2 : string) :
  saveConfig c1 fs = (None, fs1) ->
  json_MarshalIndent c2 = inr data2 ->
  exists h,
    home fs1 = Some h
    /\ saveConfig c2 fs1 = (None, with_node fs1 (configFile h) (File data2)).
Proof.
  intros Hsave Henc.
  destruct (saveConfig_success_facts c1 fs fs1 Hsave)
    as (h & data1 & _ & Hhome & _ & Hro & Hdev & Hdir & Hfile).
  exists h. split; [exact Hhome |].
  unfold saveConfig, os_UserHomeDir. rewrite Hhome.
  unfold os_MkdirAll. cbn [mkdirAll_chain]. rewrite Hdir, Henc.
  unfold os_WriteFile, parent_error.
  rewrite Hfile, parents_configFile, Hdir, Hro, Hdev. reflexivity.
Qed.

(** X9: the last save wins.  Once a save has gone through, a later save
    of any profile the codec can write goes through too, and [loadConfig]
    then returns the later profile. *)
Theorem last_save_wins (c1 c2 : Config) (fs fs1 : FS) :
  saveConfig c1 fs = (None, fs1) ->
  json_roundtrips c2 ->
  exists fs2,
    saveConfig c2 fs1 = (None, fs2)
    /\ loadConfig fs2 = inr c2.
Proof.
  intros Hsave (data2 & Henc & Hdec).
  destruct (save_after_save c1 c2 fs fs1 data2 Hsave Henc) as (h & Hhome & Hsave2).
  eexists. split; [exact Hsave2 |].
  apply (loadConfig_of_file _ h data2); [exact Hhome | | exact Hdec].
  cbn [nodes with_node]. apply lookup_insert_eq.
Qed.
End ConfigFileMore.

(** ** The config view and the main menu *)

Section ConfigView.
Context {L T : Type} `{!ListWidget L} `{!TextInput T} `{!JSON}.
Implicit Type m : Model L T.

Lemma entered_config_inputs m (cfg : Config) :
  entered_config m = Some cfg ->
  exists in0 in1 rest,
    configInputs m = in0 :: in1 :: rest
    /\ cfg = mkConfig (ti_Value in0) (ti_Value in1).
Proof.
  unfold entered_config.
  destruct (configInputs m) as [| in0 [| in1 rest]]; cbn; try discriminate.
  intros Hc. inv_step Hc. now exists in0, in1, rest.
Qed.

Lemma Update_commit m (cfg : Config) (fs : FS) :
  currentView m = "config" ->
  entered_config m = Some cfg ->
  Update m (KeyMsg "enter") fs
  = match saveConfig cfg fs with
    | (Some e, fs') => Some ((set_err (Some e) m, nil_cmd), fs')
    | (None, fs') =>
        Some ((set_currentView "main" (set_config cfg m), nil_cmd), fs')
    end.
Proof.
  intros Hv Hcfg.
  destruct (entered_config_inputs m cfg Hcfg) as (in0 & in1 & rest & Hin & ->).
  rewrite Update_enter. unfold update_view. rewrite Hv.
  cbn -[update_config]. unfold update_config. cbn -[saveConfig].
  unfold bind, index. rewrite Hin. cbn -[saveConfig].
  now destruct (saveConfig _ fs) as [[e |] fs'].
Qed.

(** X10: enter in the config view saves the profile made of the two
    inputs' values, whatever they are (nothing is validated).  When the
    save goes through, that profile becomes the live configuration and the
    view is Main; when it fails, the error is recorded, the view stays and
    the live configuration is the old one.  No command is issued. *)
Theorem commit_saves_the_entered_profile m (cfg : Config) (fs : FS) :
  currentView m = "config" ->
  entered_config m = Some cfg ->
  exists m' fs' r,
    saveConfig cfg fs = (r, fs')
    /\ Update m (KeyMsg "enter") fs = Some ((m', nil_cmd), fs')
    /\ match r with
       | None => config m' = cfg /\ currentView m' = "main" /\ err m' = err m
       | Some e =>
           config m' = config m /\ currentView m' = "config" /\ err m' = Some e
       end
    /\ currentItem m' = currentItem m
    /\ configInputs m' = configInputs m.
Proof.
  intros Hv Hcfg.
  rewrite (Update_commit m cfg fs Hv Hcfg).
  destruct (saveConfig cfg fs) as [[e |] fs'] eqn:Hsave.
  - exists (set_err (Some e) m), fs', (Some e). repeat split; auto.
  - exists (set_currentView "main" (set_config cfg m)), fs', None.
    repeat split; auto.
Qed.

(** X11: on a device that does not fail in the middle of a write, the
    profile on disk and the live configuration stay the same profile
    through every step: if [loadConfig] returns the live configuration
    before a message, it does after, provided the codec reads back the
    profile the inputs hold (the one a commit would save); and the device
    is as it was, so the same holds of the next step. *)
Theorem disk_and_live_config_agree m msg fs m' c fs' :
  disk_matches m fs ->
  write_fails_after fs = None ->
  (forall cfg, entered_config m = Some cfg -> json_roundtrips cfg) ->
  Update m msg fs = Some ((m', c), fs') ->
  disk_matches m' fs' /\ write_fails_after fs' = None.
Proof.
  unfold disk_matches. intros Hdisk Hdev Hcodec Hup.
  destruct (Update_facts m msg fs m' c fs' Hup) as (_ & _ & _ & Heff).
  destruct Heff as [(-> & -> & _) | [Hv ->]]; [now split |].
  destruct (entered_config m) as [cfg |] eqn:Hcfg.
  - rewrite (Update_commit m cfg fs Hv Hcfg) in Hup.
    destruct (saveConfig cfg fs) as [[e |] fs1] eqn:Hsave; inv_step Hup;
      (split; [| now rewrite (saveConfig_keeps_device _ _ _ _ Hsave)]).
    + cbn. rewrite <- Hdisk.
      now apply (failed_save_keeps_load cfg fs fs' e).
    + cbn.
      destruct (Hcodec cfg eq_refl) as (data & Henc & Hdec).
      destruct (load_after_save cfg fs fs' Hsave) as (data' & Henc' & Hload).
      rewrite Henc in Henc'. inv_step Henc'. now rewrite Hload, Hdec.
  - exfalso. revert Hup. rewrite Update_enter. unfold update_view. rewrite Hv.
    cbn -[update_config]. unfold update_config. cbn -[saveConfig].
    unfold bind, index. unfold entered_config in Hcfg.
    destruct (configInputs m) as [| in0 [| in1 rest]]; cbn in *;
      discriminate.
Qed.

(** X12: selecting Configure in the main menu opens the config view
    with the first input focused and, when the inputs hold the two texts
    of the live profile as given (an input may rewrite what it is given:
    tabs and line ends, a length limit), with the live profile in the two
    inputs: what a commit would save right away is the live
    configuration. *)
Theorem configure_shows_the_live_profile m (it : Item) (fs : FS) :
  holds_text (ServerURL (config m)) ->
  holds_text (APIKey (config m)) ->
  focus_laws ->
  two_inputs m ->
  currentView m = "main" ->
  selection (KeyMsg "enter") (mainList m) = Some it ->
  ItemTitle it = "Configure" ->
  exists m' in0,
    Update m (KeyMsg "enter") fs = Some ((m', nil_cmd), fs)
    /\ currentView m' = "config"
    /\ entered_config m' = Some (config m)
    /\ config m' = config m
    /\ configInputs m' !! 0%nat = Some in0
    /\ ti_Focused in0 = true.
Proof.
  intros Hurl Hkey [Hfoc _] Htwo Hv Hsel Ht.
  unfold two_inputs in Htwo.
  destruct (configInputs m) as [| in0 [| in1 rest]] eqn:Hin; cbn in Htwo;
    try lia.
  at_view Hv. unfold update_main. with_selection Hsel. rewrite Ht. cbn.
  unfold bind, at_index, index, ret. rewrite Hin. cbn.
  eexists. eexists. split; [reflexivity |]. cbn.
  split; [reflexivity |]. split.
  - unfold entered_config. cbn.
    rewrite (proj2 (Hurl in0)), (proj1 (Hkey in1)).
    now destruct (config m).
  - split; [reflexivity |]. split; [reflexivity |]. apply Hfoc.
Qed.

(** X13: selecting Search in the main menu opens the Search view with
    the query set to the empty string and no command; the results of an
    earlier search are kept, so [View] shows them, not the prompt, when
    there are any. *)
Theorem search_keeps_earlier_results m (it : Item) (fs : FS) :
  currentView m = "main" ->
  selection (KeyMsg "enter") (mainList m) = Some it ->
  ItemTitle it = "Search" ->
  exists m',
    Update m (KeyMsg "enter") fs = Some ((m', nil_cmd), fs)
    /\ currentView m' = "search"
    /\ searchInput m' = ti_SetValue "" (searchInput m)
    /\ searchList m' = searchList m
    /\ (err m = None -> list_Items (searchList m) <> [] ->
        View m' = Some (list_View (searchList m))).
Proof.
  intros Hv Hsel Ht.
  at_view Hv. unfold update_main. with_selection Hsel. rewrite Ht. cbn.
  eexists. split; [reflexivity |]. cbn. repeat split.
  intros Herr Hres. unfold View. cbn. rewrite Herr.
  destruct (list_Items (searchList m)); [congruence | reflexivity].
Qed.


(** X15: enter in the Search view with an empty query and no results
    does nothing at all: no search is issued for the empty string, and the
    model is returned as it was. *)
Theorem empty_query_is_not_searched m (fs : FS) :
  currentView m = "search" ->
  ti_Value (searchInput m) = "" ->
  list_Items (searchList m) = [] ->
  Update m (KeyMsg "enter") fs = Some ((m, nil_cmd), fs).
Proof.
  intros Hv Hq Hres. at_view Hv.
  unfold update_search, update_search_results. cbn.
  now rewrite Hq, Hres.
Qed.

(** X16: the program starts on the profile the disk holds, and on the
    placeholder profile when [loadConfig] fails for any reason, in which
    case it saves the placeholder at once; the failure is not recorded in
    [err].  When the profile was loaded, or the placeholder was saved,
    the disk holds the live configuration after startup. *)
Theorem startup_profile (fs : FS) :
  let m0 : Model L T := fst (initialModel fs) in
  let fs0 := snd (initialModel fs) in
  (forall c, loadConfig fs = inr c -> config m0 = c /\ fs0 = fs)
  /\ (forall e, loadConfig fs = inl e ->
                config m0 = default_config
                /\ fs0 = snd (saveConfig default_config fs))
  /\ err m0 = None
  /\ currentView m0 = "main"
  /\ (json_roundtrips default_config ->
      (exists c, loadConfig fs = inr c)
      \/ (exists fs', saveConfig default_config fs = (None, fs')) ->
      disk_matches m0 fs0).
Proof.
  cbn zeta. unfold initialModel, disk_matches.
  destruct (loadConfig fs) as [e | c] eqn:Hload; cbn [fst snd config err currentView].
  - split; [intros c Hc; discriminate |].
    split; [intros e' _; split; reflexivity |].
    split; [reflexivity |]. split; [reflexivity |].
    intros (data & Henc & Hdec) [[c Hc] | [fs' Hsave]]; [discriminate |].
    rewrite Hsave. cbn [snd].
    destruct (load_after_save default_config fs fs' Hsave) as (data' & Henc' & Hl).
    rewrite Henc in Henc'. inv_step Henc'. now rewrite Hl, Hdec.
  - split; [intros c' Hc; inv_step Hc; split; reflexivity |].
    split; [intros e Hc; discriminate |].
    split; [reflexivity |]. split; [reflexivity |].
    intros _ _. exact Hload.
Qed.
End ConfigView.

(** ** The commands, further *)

Lemma append_cancel_left (p a b : string) : p +:+ a = p +:+ b -> a = b.
Proof.
  induction p as [| x p IH]; cbn; [trivial |].
  intros Heq. inversion Heq. auto.
Qed.

Lemma append_cancel_right (t : string) : forall a b : string,
  a +:+ t = b +:+ t -> a = b.
Proof.
  induction a as [| x a IH]; intros [| y b] Heq; simpl in Heq.
  - reflexivity.
  - exfalso. apply (f_equal String.length) in Heq.
    rewrite !string_length_append in Heq. simpl in Heq. lia.
  - exfalso. apply (f_equal String.length) in Heq.
    simpl in Heq. rewrite !string_length_append in Heq. simpl in Heq. lia.
  - inversion Heq. f_equal. now apply IH.
Qed.

Lemma append_not_empty (s t : string) : t <> "" -> s +:+ t <> "".
Proof.
  intros Ht Heq. apply (f_equal String.length) in Heq.
  rewrite string_length_append in Heq. destruct t; [congruence |].
  simpl in Heq. lia.
Qed.

Lemma GetStreamURL_not_empty (c : jellyfin.Client) (itemID : string) :
  GetStreamURL c itemID <> "".
Proof. unfold GetStreamURL. apply append_not_empty. discriminate. Qed.

(** X19: for one client the stream URL tells the items apart: two item
    ids with the same stream URL are the same id; and no stream URL is
    empty, whatever the server URL, the key and the id. *)
Theorem stream_urls_tell_items_apart (c : jellyfin.Client) (id1 id2 : string) :
  (GetStreamURL c id1 = GetStreamURL c id2 -> id1 = id2)
  /\ GetStreamURL c id1 <> "".
Proof.
  split; [| apply GetStreamURL_not_empty].
  unfold GetStreamURL. intros Heq.
  apply append_cancel_left in Heq. apply append_cancel_left in Heq.
  now apply append_cancel_right in Heq.
Qed.

Section CommandsMore.
Context {L T : Type} `{!ListWidget L} `{!TextInput T}.
Context `{!JSON} `{!Network} `{!SortSlice} `{!Exec}.
Implicit Type m : Model L T.

(** X20: the result of a fetch is for the view whose transition issued
    the fetch: the message a fetch command delivers is an error or a
    result for the command's own view, never for another. *)
Theorem fetch_result_is_for_its_view (c : Cmd) (v : string) (msg : Msg) :
  target_of_cmd c = Some v ->
  run_Cmd c = Some msg ->
  (exists e, msg = errorMsg e)
  \/ (exists items, fetch_result msg = Some (v, items)).
Proof.
  intros Ht Hrun.
  destruct c; cbn in Ht; try discriminate; inv_step Ht; cbn in Hrun;
    inv_step Hrun;
    unfold run_fetchMovies, run_fetchTVShows, run_fetchSeasons,
      run_fetchEpisodes, run_searchMedia;
    match goal with
    | |- context [match ?x with _ => _ end] => destruct x
    end; cbn; eauto.
Qed.

(** X21: what a fetch makes of the server's items.  Movies, shows,
    seasons and search results keep the server's ids and names in the
    server's order.  A season never has a stream URL and carries the id of
    its series; every movie, show and search result has the stream URL of
    its own id, which is not empty. *)
Theorem fetched_records_follow_the_server
        (config : Config) (items : list jellyfin.MediaItem) :
  let client := jellyfin.NewClient (ServerURL config) (APIKey config) in
  let same_order (recs : list MediaItem) :=
    map ID recs = map jellyfin.ID items
    /\ map ItemTitle recs = map jellyfin.Name items in
  let streams (recs : list MediaItem) :=
    Forall (fun r => StreamURL r = GetStreamURL client (ID r)
                     /\ StreamURL r <> "") recs in
  (GetMovies client = inr items ->
   exists recs, run_fetchMovies config = fetchMoviesMsg recs
                /\ same_order recs /\ streams recs)
  /\ (GetTVShows client = inr items ->
      exists recs, run_fetchTVShows config = fetchTVShowsMsg recs
                   /\ same_order recs /\ streams recs)
  /\ (forall query, Search client query = inr items ->
      exists recs, run_searchMedia config query = searchResultsMsg recs
                   /\ same_order recs /\ streams recs)
  /\ (forall seriesID,
         FetchItems client
           (ServerURL config +:+ "/Shows/" +:+ seriesID
            +:+ "/Seasons?api_key=" +:+ APIKey config) = inr items ->
         exists recs, run_fetchSeasons config seriesID = fetchSeasonsMsg recs
                      /\ same_order recs
                      /\ Forall (fun r => StreamURL r = ""
                                          /\ ParentID r = seriesID
                                          /\ Type_ r = "season") recs).
Proof.
  intros client same_order streams.
  assert (Hshape : forall f : jellyfin.MediaItem -> MediaItem,
             (forall item, ID (f item) = jellyfin.ID item
                           /\ ItemTitle (f item) = jellyfin.Name item) ->
             same_order (map f items)).
  { intros f Hf. unfold same_order. rewrite !map_map.
    split; apply map_ext; intros item; apply Hf. }
  assert (Hall : forall (P : MediaItem -> Prop) (f : jellyfin.MediaItem -> MediaItem),
             (forall item, P (f item)) -> Forall P (map f items)).
  { intros P f Hf. apply List.Forall_forall. intros r Hr.
    apply in_map_iff in Hr. destruct Hr as (item & <- & _). apply Hf. }
  split; [| split; [| split]].
  - intros Hget. unfold run_fetchMovies. fold client. rewrite Hget.
    eexists. split; [reflexivity |]. split.
    + apply Hshape. intros item. split; reflexivity.
    + apply Hall. intros item. cbn. split; [reflexivity |].
      apply GetStreamURL_not_empty.
  - intros Hget. unfold run_fetchTVShows. fold client. rewrite Hget.
    eexists. split; [reflexivity |]. split.
    + apply Hshape. intros item. split; reflexivity.
    + apply Hall. intros item. cbn. split; [reflexivity |].
      apply GetStreamURL_not_empty.
  - intros query Hget. unfold run_searchMedia. fold client. rewrite Hget.
    eexists. split; [reflexivity |]. split.
    + apply Hshape. intros item. split; reflexivity.
    + apply Hall. intros item. cbn. split; [reflexivity |].
      apply GetStreamURL_not_empty.
  - intros seriesID Hget. unfold run_fetchSeasons. fold client. rewrite Hget.
    eexists. split; [reflexivity |]. split.
    + apply Hshape. intros item. split; reflexivity.
    + apply Hall. intros item. cbn. repeat split.
Qed.

(** X22: every episode [fetchEpisodes] delivers is an episode of the
    season asked for, with the stream URL of its own id, and there are as
    many as the server returned, for any [sort.Slice] that keeps its
    promise. *)
Theorem fetched_episodes_belong_to_the_season
        (config : Config) (seasonID : string) (items : list jellyfin.MediaItem) :
  let client := jellyfin.NewClient (ServerURL config) (APIKey config) in
  sort_Slice_contract ->
  FetchItems client (episodes_endpoint config seasonID) = inr items ->
  exists recs,
    run_fetchEpisodes config seasonID = fetchEpisodesMsg recs
    /\ length recs = length items
    /\ Forall (fun r => ParentID r = seasonID
                        /\ Type_ r = "episode"
                        /\ StreamURL r = GetStreamURL client (ID r)
                        /\ StreamURL r <> ""
                        /\ exists item, In item items
                                        /\ ID r = jellyfin.ID item
                                        /\ ItemTitle r = jellyfin.Name item
                                        /\ IndexNumber r = jellyfin.IndexNumber item)
         recs.
Proof.
  intros client Hsort Hget.
  destruct (Hsort MediaItem less_IndexNumber (map (episode_of client seasonID) items))
    as [Hperm _].
  eexists. split.
  - unfold run_fetchEpisodes. fold client. rewrite Hget. reflexivity.
  - split.
    + rewrite <- (Permutation_length Hperm). apply length_map.
    + apply List.Forall_forall. intros r Hr.
      apply (Permutation_in _ (Permutation_sym Hperm)) in Hr.
      apply in_map_iff in Hr. destruct Hr as (item & <- & Hitem).
      cbn. repeat split; [apply GetStreamURL_not_empty |].
      exists item. repeat split. exact Hitem.
Qed.

(** What [%02d] prints for a number that is not negative: two characters
    at least, all digits, which read back as the number. *)
Lemma fmt_02d_digits (n : Z) :
  0 <= n ->
  (2 <= String.length (fmt_02d n))%nat
  /\ exists d, NilEmpty.uint_of_string (fmt_02d n) = Some d
               /\ Z.of_N (N.of_uint d) = n.
Proof.
  intros Hn. unfold fmt_02d.
  destruct (Z.ltb_spec n 0) as [Hneg | _]; [lia |]. cbn zeta.
  pose proof (Unsigned.of_to (Z.to_N n)) as Hval.
  pose proof (NilEmpty.usu (N.to_uint (Z.to_N n))) as Hread.
  assert (Hlen : (1 <= String.length
                        (NilEmpty.string_of_uint (N.to_uint (Z.to_N n))))%nat).
  { destruct (N.to_uint (Z.to_N n)) eqn:Hu; cbn; try lia.
    cbn in Hval. rewrite <- Hval in Hu. discriminate Hu. }
  assert (Hback : Z.of_N (N.of_uint (N.to_uint (Z.to_N n))) = n).
  { rewrite Hval. apply Z2N.id. exact Hn. }
  destruct (Nat.ltb_spec
              (String.length (NilEmpty.string_of_uint (N.to_uint (Z.to_N n)))) 2)
    as [Hshort | Hlong].
  - split.
    + rewrite string_length_append. cbn. lia.
    + exists (Decimal.D0 (N.to_uint (Z.to_N n))). split; [| exact Hback].
      rewrite append_cons, append_nil_l. cbn [NilEmpty.uint_of_string].
      rewrite Hread. reflexivity.
  - split; [exact Hlong |]. now exists (N.to_uint (Z.to_N n)).
Qed.

(** X23: the title a list shows for an episode is "E", its number, a
    colon and its name when the number is positive, and the bare name
    otherwise (a missing number, 0 or a negative one).  The number is
    printed on two digits at least, with a leading zero below ten, and
    reads back as the number. *)
Theorem episode_title (client : jellyfin.Client) (seasonID : string)
        (item : jellyfin.MediaItem) :
  let n := jellyfin.IndexNumber item in
  Title (episode_of client seasonID item)
  = (if Z.ltb 0 n
     then "E" +:+ fmt_02d n +:+ ": " +:+ jellyfin.Name item
     else jellyfin.Name item)
  /\ (0 < n ->
      (2 <= String.length (fmt_02d n))%nat
      /\ (n < 10 -> exists digit, fmt_02d n = String "0" (String digit ""))
      /\ exists d, NilEmpty.uint_of_string (fmt_02d n) = Some d
                   /\ Z.of_N (N.of_uint d) = n).
Proof.
  cbn zeta. split.
  - unfold Title, episode_of. cbn.
    destruct (Z.ltb 0 (jellyfin.IndexNumber item)); cbn; [reflexivity |].
    now destruct (String.eqb_spec (jellyfin.Name item) "") as [-> |].
  - intros Hpos.
    destruct (fmt_02d_digits (jellyfin.IndexNumber item)) as [Hlen Hread];
      [lia |].
    split; [exact Hlen |]. split; [| exact Hread].
    intros Hsmall.
    assert (Hcases : In (jellyfin.IndexNumber item) [1; 2; 3; 4; 5; 6; 7; 8; 9])
      by (cbn; lia).
    cbn in Hcases.
    repeat (destruct Hcases as [<- | Hcases]; [eexists; reflexivity |]).
    contradiction.
Qed.

Lemma select_movies_step m (it : Item) (fs : FS) :
  currentView m = "main" ->
  selection (KeyMsg "enter") (mainList m) = Some it ->
  ItemTitle it = "Movies" ->
  Update m (KeyMsg "enter") fs
  = Some ((set_currentView "movies"
             (set_mainList (fst (list_Update (KeyMsg "enter") (mainList m))) m),
           fetchMovies (config m)), fs).
Proof.
  intros Hv Hsel Ht. at_view Hv.
  unfold update_main. with_selection Hsel. now rewrite Ht.
Qed.

(** X24: the Movies transition end to end.  Selecting Movies enters the
    Movies view and issues the fetch.  When the fetch succeeds and its
    message comes back, the Movies list is set to the server's movies in
    the server's order and nothing else moves; when it fails, the view is
    still Movies, its list is what it was, and [View] shows the error. *)
Theorem movies_end_to_end m (it : Item) (fs : FS) :
  let client := jellyfin.NewClient (ServerURL (config m)) (APIKey (config m)) in
  currentView m = "main" ->
  selection (KeyMsg "enter") (mainList m) = Some it ->
  ItemTitle it = "Movies" ->
  exists m1 msg,
    Update m (KeyMsg "enter") fs = Some ((m1, fetchMovies (config m)), fs)
    /\ run_Cmd (fetchMovies (config m)) = Some msg
    /\ (forall items, GetMovies client = inr items ->
        exists m2 recs,
          Update m1 msg fs = Some ((m2, nil_cmd), fs)
          /\ currentView m2 = "movies"
          /\ moviesList m2 = list_SetItems recs (moviesList m)
          /\ map ID recs = map jellyfin.ID items
          /\ err m2 = err m)
    /\ (forall e, GetMovies client = inl e ->
        exists m2,
          Update m1 msg fs = Some ((m2, nil_cmd), fs)
          /\ currentView m2 = "movies"
          /\ moviesList m2 = moviesList m
          /\ View m2 = Some (error_screen e)).
Proof.
  intros client Hv Hsel Ht.
  eexists. exists (run_fetchMovies (config m)).
  split; [now apply (select_movies_step m it fs) |].
  split; [reflexivity |].
  unfold run_fetchMovies. fold client. split.
  - intros items Hget. rewrite Hget. eexists. eexists.
    split; [reflexivity |]. cbn. rewrite convertToListItems_same.
    repeat split. rewrite map_map. reflexivity.
  - intros e Hget. rewrite Hget. eexists.
    split; [reflexivity |]. repeat split.
Qed.

Lemma select_episode_step m (it : Item) (fs : FS) :
  currentView m = "episodes" ->
  selection (KeyMsg "enter") (episodesList m) = Some it ->
  ID it <> "" ->
  Update m (KeyMsg "enter") fs
  = Some ((set_episodesList (fst (list_Update (KeyMsg "enter") (episodesList m))) m,
           playMedia it), fs).
Proof.
  intros Hv Hsel Hid. at_view Hv.
  unfold update_episodes. with_selection Hsel.
  now rewrite (eqb_empty_false _ Hid).
Qed.

(** X25: playing is fire and forget.  The player is started on the
    record's stream URL; when it starts, no message comes back and the
    model stays as enter left it; when it does not, the failure comes back
    as an error, the view stays Episodes and [View] shows
    "failed to start MPV" with the reason. *)
Theorem play_reports_only_a_failed_start m (it : Item) (fs : FS) :
  currentView m = "episodes" ->
  selection (KeyMsg "enter") (episodesList m) = Some it ->
  ID it <> "" ->
  exists m1,
    Update m (KeyMsg "enter") fs = Some ((m1, playMedia it), fs)
    /\ (exec_Start "mpv" [StreamURL it] = None ->
        run_Cmd (playMedia it) = None)
    /\ (forall e, exec_Start "mpv" [StreamURL it] = Some e ->
        exists m2,
          run_Cmd (playMedia it) = Some (errorMsg ("failed to start MPV: " +:+ e))
          /\ Update m1 (errorMsg ("failed to start MPV: " +:+ e)) fs
             = Some ((m2, nil_cmd), fs)
          /\ currentView m2 = "episodes"
          /\ View m2 = Some (error_screen ("failed to start MPV: " +:+ e))).
Proof.
  intros Hv Hsel Hid.
  eexists. split; [now apply (select_episode_step m it fs) |].
  cbn [run_Cmd]. unfold run_playMedia. split.
  - intros Hok. now rewrite Hok.
  - intros e Hfail. rewrite Hfail. eexists.
    split; [reflexivity |]. split; [reflexivity |]. cbn. auto.
Qed.
End CommandsMore.

Section Drilling.
Context {L T : Type} `{!ListWidget L} `{!TextInput T} `{!JSON}.
Implicit Type m : Model L T.

(** X26: opening a record makes it the drilled-into record and fetches
    by its id, not by the id of the record drilled into before: from
    Movies and TV Shows the seasons of the selected record, from Seasons
    the episodes of the selected season.  No list is cleared on the way:
    the Seasons or Episodes list shows what it held until the result
    comes. *)
Theorem opening_a_record_fetches_its_children m (it : Item) (fs : FS) :
  ID it <> "" ->
  (currentView m = "movies" /\ selection (KeyMsg "enter") (moviesList m) = Some it)
  \/ (currentView m = "tvshows"
      /\ selection (KeyMsg "enter") (tvShowsList m) = Some it)
  \/ (currentView m = "seasons"
      /\ selection (KeyMsg "enter") (seasonsList m) = Some it) ->
  exists m',
    Update m (KeyMsg "enter") fs
    = Some ((m', if String.eqb (currentView m) "seasons"
                 then fetchEpisodes (config m) (ID it)
                 else fetchSeasons (config m) (ID it)), fs)
    /\ currentItem m' = it
    /\ currentView m'
       = (if String.eqb (currentView m) "seasons" then "episodes" else "seasons")
    /\ (currentView m <> "seasons" -> seasonsList m' = seasonsList m)
    /\ episodesList m' = episodesList m.
Proof.
  intros Hid [[Hv Hsel] | [[Hv Hsel] | [Hv Hsel]]]; at_view Hv.
  - unfold update_library. rewrite Hv. cbn. with_selection Hsel.
    rewrite (eqb_empty_false _ Hid). cbn. eexists. repeat split.
  - unfold update_library. rewrite Hv. cbn. with_selection Hsel.
    rewrite (eqb_empty_false _ Hid). cbn. eexists. repeat split.
  - unfold update_seasons. with_selection Hsel.
    rewrite (eqb_empty_false _ Hid). cbn. eexists. repeat split.
    intros Hne. congruence.
Qed.
End Drilling.

(** ** The further properties on the sample sessions *)

Import MoreSamples.

Lemma navigation_only_on_enter_or_esc_witness :
  exists m' c fs',
    Update watching (KeyMsg "down") empty_fs = Some ((m', c), fs')
    /\ currentView m' = currentView watching
    /\ currentItem m' = currentItem watching.
Proof.
  destruct (Update watching (KeyMsg "down") empty_fs) as [[[m' c] fs'] |] eqn:Hup;
    [| vm_compute in Hup; discriminate].
  exists m', c, fs'. split; [reflexivity |].
  apply (navigation_only_on_enter_or_esc
           watching (KeyMsg "down") empty_fs m' c fs' Hup); discriminate.
Defined.

Lemma only_a_commit_touches_disk_and_config_witness :
  exists m' c fs',
    Update watching (KeyMsg "enter") empty_fs = Some ((m', c), fs')
    /\ fs' = empty_fs
    /\ config m' = config watching.
Proof.
  destruct (Update watching (KeyMsg "enter") empty_fs) as [[[m' c] fs'] |] eqn:Hup;
    [| vm_compute in Hup; discriminate].
  exists m', c, fs'. split; [reflexivity |].
  destruct (only_a_commit_touches_disk_and_config
              watching (KeyMsg "enter") empty_fs m' c fs' Hup)
    as (Hfs & Hcfg & _).
  - left. discriminate.
  - split; [exact Hfs | exact Hcfg].
Defined.

Lemma esc_goes_back_witness :
  Update watching (KeyMsg "esc") empty_fs
  = Some ((set_currentView "seasons" watching, nil_cmd), empty_fs)
  /\ Update browsing (KeyMsg "esc") empty_fs
     = Some ((set_currentView "main" browsing, nil_cmd), empty_fs).
Proof.
  split.
  - apply (proj1 (esc_goes_back watching empty_fs)). reflexivity.
  - apply (proj1 (proj2 (proj2 (esc_goes_back browsing empty_fs)))).
    left. reflexivity.
Defined.

Lemma back_from_a_movie_lands_in_tvshows_witness :
  exists m',
    run_events browsing [KeyMsg "enter"; KeyMsg "esc"] empty_fs
    = Some (m', empty_fs)
    /\ currentView m' = "tvshows"
    /\ currentItem m' = movie "m1" "The Matrix"
    /\ moviesList m' = fst (list_Update (KeyMsg "enter") (moviesList browsing)).
Proof.
  apply (back_from_a_movie_lands_in_tvshows
           browsing (movie "m1" "The Matrix") empty_fs);
    [reflexivity | vm_compute; reflexivity | discriminate].
Defined.



(** A save that fails in the middle of the write: the stored profile is
    gone, the file holds the first bytes of the new one. *)
Lemma failed_write_loses_the_stored_profile :
  loadConfig (failing_fs profile 14) = inr profile
  /\ saveConfig default_config (failing_fs profile 14)
     = (Some ("failed to write config file: "
              +:+ "write /home/user/.config/jellyfin-tui/config: input/output error"),
        with_node (failing_fs profile 14)
          "/home/user/.config/jellyfin-tui/config"
          (File (String.substring 0 14 (encode_Config default_config))))
  /\ is_Some (nodes (snd (saveConfig default_config (failing_fs profile 14)))
                !! "/home/user/.config/jellyfin-tui/config")
  /\ forall c, loadConfig (snd (saveConfig default_config (failing_fs profile 14)))
               <> inr c.
Proof.
  split; [reflexivity |]. split; [reflexivity |].
  split; [vm_compute; eauto |].
  intros c Hload. vm_compute in Hload. discriminate Hload.
Qed.

Lemma last_save_wins_witness :
  exists fs1 fs2,
    saveConfig default_config empty_fs = (None, fs1)
    /\ saveConfig profile fs1 = (None, fs2)
    /\ loadConfig fs2 = inr profile.
Proof.
  assert (Hcodec : json_roundtrips profile).
  { exists (encode_Config profile). split; reflexivity. }
  destruct (saveConfig default_config empty_fs) as [[e |] fs1] eqn:Hsave1;
    [vm_compute in Hsave1; discriminate |].
  destruct (last_save_wins default_config profile empty_fs fs1 Hsave1 Hcodec)
    as (fs2 & Hsave & Hload).
  exists fs1, fs2. split; [reflexivity |]. split; [exact Hsave | exact Hload].
Defined.

Lemma commit_saves_the_entered_profile_witness :
  exists m' fs',
    Update configuring (KeyMsg "enter") empty_fs = Some ((m', nil_cmd), fs')
    /\ config m' = default_config
    /\ currentView m' = "main"
    /\ loadConfig fs' = inr default_config.
Proof.
  assert (Hentered : entered_config configuring = Some default_config)
    by (vm_compute; reflexivity).
  destruct (commit_saves_the_entered_profile
              configuring default_config empty_fs eq_refl Hentered)
    as (m' & fs' & r & Hsave & Hup & Hres & _).
  vm_compute in Hsave. inv_step Hsave.
  destruct Hres as (Hcfg & Hview & _).
  eexists. eexists. split; [exact Hup |].
  split; [exact Hcfg |]. split; [exact Hview |]. reflexivity.
Defined.

Lemma disk_and_live_config_agree_witness :
  exists m' c fs',
    Update configuring (KeyMsg "enter") (snd (initialModel empty_fs))
    = Some ((m', c), fs')
    /\ disk_matches m' fs'
    /\ write_fails_after fs' = None.
Proof.
  destruct (Update configuring (KeyMsg "enter") (snd (initialModel empty_fs)))
    as [[[m' c] fs'] |] eqn:Hup; [| vm_compute in Hup; discriminate].
  exists m', c, fs'. split; [reflexivity |].
  apply (disk_and_live_config_agree
           configuring (KeyMsg "enter") (snd (initialModel empty_fs)) m' c fs').
  - reflexivity.
  - reflexivity.
  - intros cfg Hcfg. vm_compute in Hcfg. inv_step Hcfg.
    exists (encode_Config default_config). split; reflexivity.
  - exact Hup.
Defined.

Lemma plain_holds_text (v : string) : holds_text (T := input_Model) v.
Proof. intros t. split; reflexivity. Qed.

Lemma plain_focus_laws : focus_laws (T := input_Model).
Proof. split; reflexivity. Qed.

Lemma configure_shows_the_live_profile_witness :
  exists m' in0,
    Update (menu_at 3) (KeyMsg "enter") empty_fs = Some ((m', nil_cmd), empty_fs)
    /\ currentView m' = "config"
    /\ entered_config m' = Some (config (menu_at 3))
    /\ config m' = config (menu_at 3)
    /\ configInputs m' !! 0%nat = Some in0
    /\ ti_Focused in0 = true.
Proof.
  apply (configure_shows_the_live_profile
           (menu_at 3) (mkMediaItem "" "Configure" "action" "" "" "" 0 "") empty_fs
           (plain_holds_text _) (plain_holds_text _) plain_focus_laws).
  - unfold two_inputs. vm_compute. lia.
  - reflexivity.
  - reflexivity.
  - reflexivity.
Defined.

Lemma search_keeps_earlier_results_witness :
  exists m',
    Update (set_mainList (mkList mainItems 2 "Jellyfin TUI" 0 0)
              (set_currentView "main" results)) (KeyMsg "enter") empty_fs
    = Some ((m', nil_cmd), empty_fs)
    /\ currentView m' = "search"
    /\ View m' = Some (list_View (searchList results)).
Proof.
  assert (Hsel : selection (KeyMsg "enter")
                   (mainList (set_mainList (mkList mainItems 2 "Jellyfin TUI" 0 0)
                                (set_currentView "main" results)))
                 = Some (mkMediaItem "" "Search" "action" "" "" "" 0 ""))
    by (vm_compute; reflexivity).
  destruct (search_keeps_earlier_results
              (set_mainList (mkList mainItems 2 "Jellyfin TUI" 0 0)
                 (set_currentView "main" results))
              (mkMediaItem "" "Search" "action" "" "" "" 0 "") empty_fs
              eq_refl Hsel eq_refl)
    as (m' & Hup & Hview & _ & _ & Hshown).
  exists m'. split; [exact Hup |].
  split; [exact Hview |].
  apply Hshown; [reflexivity | vm_compute; discriminate].
Defined.


Lemma empty_query_is_not_searched_witness :
  Update idle_search (KeyMsg "enter") empty_fs
  = Some ((idle_search, nil_cmd), empty_fs).
Proof.
  apply (empty_query_is_not_searched idle_search empty_fs);
    vm_compute; reflexivity.
Defined.

Lemma startup_profile_witness :
  config start = default_config
  /\ disk_matches start (snd (initialModel (L := list_Model) (T := input_Model)
                                empty_fs)).
Proof.
  destruct (startup_profile (L := list_Model) (T := input_Model) empty_fs)
    as (_ & Hdefault & _ & _ & Hdisk).
  split.
  - apply (Hdefault "config file does not exist"). reflexivity.
  - apply Hdisk.
    + exists (encode_Config default_config). split; reflexivity.
    + right. eexists. reflexivity.
Defined.

Lemma failed_fetch_delivers_errorMsg_witness :
  @run_fetchMovies codec unreachable profile = errorMsg "connection refused"
  /\ @run_fetchEpisodes codec unreachable insertion_SortSlice profile "S1"
     = errorMsg "connection refused".
Proof.
  destruct (@failed_fetch_delivers_errorMsg codec unreachable insertion_SortSlice
              profile "connection refused" (fun _ => eq_refl))
    as (Hmovies & _ & _ & Hepisodes & _).
  split; [exact Hmovies | exact (Hepisodes "S1")].
Defined.

Lemma fetch_result_is_for_its_view_witness :
  (exists e, run_fetchSeasons profile "s1" = errorMsg e)
  \/ (exists recs,
         fetch_result (run_fetchSeasons profile "s1") = Some ("seasons", recs)).
Proof.
  apply (fetch_result_is_for_its_view (fetchSeasons profile "s1") "seasons");
    reflexivity.
Defined.

Lemma fetched_records_follow_the_server_witness :
  exists recs,
    run_fetchSeasons profile "s1" = fetchSeasonsMsg recs
    /\ map ID recs = ["e1"; "e2"; "e3"]
    /\ Forall (fun r => StreamURL r = "" /\ ParentID r = "s1" /\ Type_ r = "season")
         recs.
Proof.
  destruct (fetched_records_follow_the_server profile catalog)
    as (_ & _ & _ & Hseasons).
  assert (Hfetch : FetchItems
                     (jellyfin.NewClient (ServerURL profile) (APIKey profile))
                     (ServerURL profile +:+ "/Shows/" +:+ "s1"
                      +:+ "/Seasons?api_key=" +:+ APIKey profile) = inr catalog)
    by (vm_compute; reflexivity).
  destruct (Hseasons "s1" Hfetch) as (recs & Hrun & [Hids _] & Hshape).
  exists recs. split; [exact Hrun |]. split; [exact Hids | exact Hshape].
Defined.

Lemma fetched_episodes_belong_to_the_season_witness :
  exists recs,
    run_fetchEpisodes profile "S1" = fetchEpisodesMsg recs
    /\ length recs = 3%nat
    /\ Forall (fun r => ParentID r = "S1") recs.
Proof.
  assert (Hfetch : FetchItems
                     (jellyfin.NewClient (ServerURL profile) (APIKey profile))
                     (episodes_endpoint profile "S1") = inr catalog)
    by reflexivity.
  destruct (fetched_episodes_belong_to_the_season
              profile "S1" catalog insertion_sort_contract Hfetch)
    as (recs & Hrun & Hlen & Hall).
  exists recs. split; [exact Hrun |]. split; [exact Hlen |].
  eapply Forall_impl; [exact Hall |]. intros r Hr. apply Hr.
Defined.

Lemma movies_end_to_end_witness :
  exists m1 msg m2,
    Update start (KeyMsg "enter") empty_fs
    = Some ((m1, fetchMovies (config start)), empty_fs)
    /\ run_Cmd (fetchMovies (config start)) = Some msg
    /\ Update m1 msg empty_fs = Some ((m2, nil_cmd), empty_fs)
    /\ currentView m2 = "movies"
    /\ map ID (list_Items (moviesList m2)) = ["e1"; "e2"; "e3"].
Proof.
  assert (Hsel : selection (KeyMsg "enter") (mainList start)
                 = Some (mkMediaItem "" "Movies" "category" "" "" "" 0 ""))
    by (vm_compute; reflexivity).
  destruct (movies_end_to_end
              start (mkMediaItem "" "Movies" "category" "" "" "" 0 "") empty_fs
              eq_refl Hsel eq_refl)
    as (m1 & msg & Hup & Hrun & Hok & _).
  assert (Hget : GetMovies (jellyfin.NewClient (ServerURL (config start))
                                               (APIKey (config start)))
                 = inr catalog) by (vm_compute; reflexivity).
  destruct (Hok catalog Hget) as (m2 & recs & Hup2 & Hview & Hlist & Hids & _).
  exists m1, msg, m2. split; [exact Hup |]. split; [exact Hrun |].
  split; [exact Hup2 |]. split; [exact Hview |].
  rewrite Hlist. exact Hids.
Defined.

Lemma play_reports_only_a_failed_start_witness :
  exists m1 m2,
    Update watching (KeyMsg "enter") empty_fs
    = Some ((m1, playMedia (movie "e1" "One")), empty_fs)
    /\ Update m1 (errorMsg "failed to start MPV: executable file not found in $PATH")
         empty_fs = Some ((m2, nil_cmd), empty_fs)
    /\ currentView m2 = "episodes".
Proof.
  assert (Hsel : selection (KeyMsg "enter") (episodesList watching)
                 = Some (movie "e1" "One")) by (vm_compute; reflexivity).
  destruct (play_reports_only_a_failed_start
              watching (movie "e1" "One") empty_fs eq_refl Hsel)
    as (m1 & Hup & _ & Hfail).
  { discriminate. }
  destruct (Hfail "executable file not found in $PATH" eq_refl)
    as (m2 & _ & Hup2 & Hview & _).
  exists m1, m2. split; [exact Hup |]. split; [exact Hup2 | exact Hview].
Defined.

Lemma opening_a_record_fetches_its_children_witness :
  exists m',
    Update browsing (KeyMsg "enter") empty_fs
    = Some ((m', fetchSeasons (config browsing) "m1"), empty_fs)
    /\ currentItem m' = movie "m1" "The Matrix"
    /\ currentView m' = "seasons".
Proof.
  destruct (opening_a_record_fetches_its_children
              browsing (movie "m1" "The Matrix") empty_fs)
    as (m' & Hup & Hitem & Hview & _).
  - discriminate.
  - left. split; [reflexivity | vm_compute; reflexivity].
  - exists m'. split; [exact Hup |]. split; [exact Hitem | exact Hview].
Defined.
